(** * Shooting range: the [Playground] orchestrator

    A shallow embedding of [src/shooting-range/playground.ts] and the
    properties of its per-frame simulation step.

    Modelling conventions.
    - A JavaScript [number] is an exact rational ([Q]); [Math.round] rounds
      half-way cases towards plus infinity.  IEEE-754 rounding of the
      arithmetic itself is outside the model.
    - Arrays are lists read with [!!] and written with [<[i:=x]>]; an object
      held in an array is identified by its index, so that a reference into
      [targets] (the field [closestTarget]) is an index and sees every later
      mutation of the target it points to.
    - A method that can throw a [TypeError] (a property read on [undefined])
      returns [option]: [None] is the exception.
    - Canvas calls ([clear], the [draw] methods of the entities,
      [drawGameOver]) only paint; they do not appear in the state. *)

From Stdlib Require Import QArith Qround Lqa.
From stdpp Require Import base option list.

Local Open Scope Q_scope.

(** ** Numbers *)

(** [Math.round]: the nearest integer, ties going up. *)
Definition Math_round (q : Q) : Q := inject_Z (Qfloor (q + (1 # 2))).

(** [perOfNum(per, num)], line 335, on exact rationals: the rounding of the
    double-precision product and quotient is not modelled. *)
Definition perOfNum (per num : Q) : Q := Math_round (per * num / 100).

(** [a <= b], [a >= b] and [a > b] on numbers, as booleans. *)
Definition num_le (a b : Q) : bool := Qle_bool a b.
Definition num_ge (a b : Q) : bool := Qle_bool b a.
Definition num_gt (a b : Q) : bool := negb (Qle_bool a b).

(** ** Collaborators

    The classes [Bullet], [Target], [Gun] and [Stats] live in sibling files;
    the orchestrator reads and writes the fields below. *)

(** Modelled from the spec: the enumeration [BulletStatus] of [bullet.ts];
    the source names [Hit] and [Miss], the spec names the third state. *)
Inductive BulletStatus := InFlight | Hit | Miss.

Global Instance BulletStatus_eq_dec : EqDecision BulletStatus.
Proof. solve_decision. Defined.

Record Bullet := mkBullet {
  bullet_x : Q;
  bullet_y : Q;
  bullet_radius : Q;
  bullet_status : BulletStatus
}.

Record Target := mkTarget {
  target_x : Q;
  target_y : Q;
  target_width : Q;
  target_height : Q;
  target_hit : bool
}.

Record Gun := mkGun {
  gun_x : Q;
  gun_y : Q;
  gun_width : Q;
  gun_height : Q
}.

Record Stats := mkStats {
  stats_x : Q;
  stats_y : Q;
  stats_fontSize : Q;
  stats_fired : nat;
  stats_hit : nat;
  stats_miss : nat
}.

(** Modelled from the spec: the constructor of [Bullet] (bullet.ts), which
    stores its arguments; a new bullet is in flight. *)
Definition new_Bullet (x y radius : Q) : Bullet := mkBullet x y radius InFlight.

(** Modelled from the spec: the constructor of [Target] (target.ts), which
    stores its arguments; a new target is not hit. *)
Definition new_Target (x y w h : Q) : Target := mkTarget x y w h false.

(** Modelled from the spec: the constructor of [Gun] (gun.ts), which stores
    its arguments. *)
Definition new_Gun (x y w h : Q) : Gun := mkGun x y w h.

(** Modelled from the spec: the constructor of [Stats] (stats.ts), which
    stores its position and font size; no count has been pushed yet. *)
Definition new_Stats (x y fontSize : Q) : Stats := mkStats x y fontSize 0 0 0.

(** Modelled from the spec: [Stats.update(fired, hit, miss)] records the three
    counts it receives. *)
Definition Stats_update (st : Stats) (fired hit miss : nat) : Stats :=
  mkStats (stats_x st) (stats_y st) (stats_fontSize st) fired hit miss.

(** Modelled from the spec: [Gun.moveTo(newX)] repositions the gun along the
    horizontal axis. *)
Definition Gun_moveTo (g : Gun) (newX : Q) : Gun :=
  mkGun newX (gun_y g) (gun_width g) (gun_height g).

Definition Bullet_set_y (b : Bullet) (y : Q) : Bullet :=
  mkBullet (bullet_x b) y (bullet_radius b) (bullet_status b).
Definition Bullet_set_status (b : Bullet) (st : BulletStatus) : Bullet :=
  mkBullet (bullet_x b) (bullet_y b) (bullet_radius b) st.
Definition Target_set_y (t : Target) (y : Q) : Target :=
  mkTarget (target_x t) y (target_width t) (target_height t) (target_hit t).
Definition Target_set_hit (t : Target) (h : bool) : Target :=
  mkTarget (target_x t) (target_y t) (target_width t) (target_height t) h.

(** ** JavaScript values of the two fields that can hold no object *)

(** The field [closestTarget]: [null], [undefined], or a reference to the
    target at an index of [targets]. *)
Inductive Ref := RNull | RUndefined | RObj (i : nat).

(** The field [gameOver]: the result of [closest && ...] is the left operand
    when that is falsy, so the field can hold [null] and [undefined] as well
    as a boolean. *)
Inductive JsBool := JNull | JUndefined | JBool (b : bool).

(** What [if (v)] tests. *)
Definition truthy (v : JsBool) : bool :=
  match v with JBool b => b | _ => false end.

(** ** The orchestrator *)

Record Playground := mkPlayground {
  width : Q;
  height : Q;
  gameOver : JsBool;
  gun : Gun;
  gunStep : Q;
  bullets : list Bullet;
  bulletsLen : nat;
  bulletStep : Q;
  targets : list Target;
  targetsLen : nat;
  closestTarget : Ref;
  stats : Stats
}.

(** The object as the constructor leaves it: the session fields ([gameOver],
    [bullets], [targets], the cached lengths, [closestTarget]) are not set
    before [newGame]. *)
Record Constructed := mkConstructed {
  c_width : Q;
  c_height : Q;
  c_gunStep : Q;
  c_bulletStep : Q;
  c_stats : Stats;
  c_gun : Gun
}.

(** [constructor], lines 40-51, with [createStats] and [createGun]. *)
Definition constructor (w h : Q) : Constructed :=
  let gunStep := perOfNum (17 # 10) w in
  let bulletStep := perOfNum 1 h in
  let st := new_Stats (perOfNum 2 w) (perOfNum 95 h) (perOfNum (25 # 10) h) in
  let gw := perOfNum 6 w in
  let gh := perOfNum 6 w in
  let gx := Math_round (w / 2 - gw / 2) in
  let gy := Math_round (stats_y st - stats_fontSize st - gh) in
  mkConstructed w h gunStep bulletStep st (new_Gun gx gy gw gh).

(** The constructor's part of a running game. *)
Definition constructed_of (s : Playground) : Constructed :=
  mkConstructed (width s) (height s) (gunStep s) (bulletStep s) (stats s) (gun s).

(** [for (let i = i0; i < i0 + n; ++i) body], with a body that may throw. *)
Fixpoint for_loop {St : Type} (n i : nat) (body : nat → St → option St) (s : St)
  : option St :=
  match n with
  | O => Some s
  | S n' => body i s ≫= for_loop n' (S i) body
  end.

(** Field updates of the orchestrator. *)
Definition set_gun (s : Playground) (g : Gun) : Playground :=
  mkPlayground (width s) (height s) (gameOver s) g (gunStep s)
    (bullets s) (bulletsLen s) (bulletStep s)
    (targets s) (targetsLen s) (closestTarget s) (stats s).
Definition set_bullets (s : Playground) (bs : list Bullet) : Playground :=
  mkPlayground (width s) (height s) (gameOver s) (gun s) (gunStep s)
    bs (bulletsLen s) (bulletStep s)
    (targets s) (targetsLen s) (closestTarget s) (stats s).
Definition set_bulletsLen (s : Playground) (n : nat) : Playground :=
  mkPlayground (width s) (height s) (gameOver s) (gun s) (gunStep s)
    (bullets s) n (bulletStep s)
    (targets s) (targetsLen s) (closestTarget s) (stats s).
Definition set_targets (s : Playground) (ts : list Target) : Playground :=
  mkPlayground (width s) (height s) (gameOver s) (gun s) (gunStep s)
    (bullets s) (bulletsLen s) (bulletStep s)
    ts (targetsLen s) (closestTarget s) (stats s).
Definition set_targetsLen (s : Playground) (n : nat) : Playground :=
  mkPlayground (width s) (height s) (gameOver s) (gun s) (gunStep s)
    (bullets s) (bulletsLen s) (bulletStep s)
    (targets s) n (closestTarget s) (stats s).
Definition set_closestTarget (s : Playground) (r : Ref) : Playground :=
  mkPlayground (width s) (height s) (gameOver s) (gun s) (gunStep s)
    (bullets s) (bulletsLen s) (bulletStep s)
    (targets s) (targetsLen s) r (stats s).
Definition set_stats (s : Playground) (st : Stats) : Playground :=
  mkPlayground (width s) (height s) (gameOver s) (gun s) (gunStep s)
    (bullets s) (bulletsLen s) (bulletStep s)
    (targets s) (targetsLen s) (closestTarget s) st.
Definition set_gameOver (s : Playground) (v : JsBool) : Playground :=
  mkPlayground (width s) (height s) v (gun s) (gunStep s)
    (bullets s) (bulletsLen s) (bulletStep s)
    (targets s) (targetsLen s) (closestTarget s) (stats s).

(** [createBullet], lines 106-120. *)
Definition createBullet (s : Playground) : Playground :=
  let g := gun s in
  let x := gun_x g + gun_width g / 2 in
  let y := gun_y g in
  let radius := perOfNum 1 (width s) in
  let bs := bullets s ++ [new_Bullet x y radius] in
  set_bulletsLen (set_bullets s bs) (length bs).

(** [createTargets], lines 122-154.  [targetsInRow] is the local constant 12.
    The first loop runs over the cached length and reads [targets[i].hit];
    the second pushes the new row while [x] advances. *)
Definition targetsInRow : nat := 12.

Definition row_gap (w : Q) : Q := perOfNum (18 # 10) w.
Definition row_size (w : Q) : Q :=
  Math_round ((w - row_gap w) / inject_Z (Z.of_nat targetsInRow)).

Definition shift_body (gap : Q) (i : nat) (ts : list Target)
  : option (list Target) :=
  match ts !! i with
  | None => None
  | Some target =>
      if negb (target_hit target)
      then Some (<[i := Target_set_y target
                          (target_y target + target_height target + gap)]> ts)
      else Some ts
  end.

Definition push_body (y w h gap : Q) (_ : nat) (st : list Target * Q)
  : option (list Target * Q) :=
  let '(ts, x) := st in
  Some (ts ++ [new_Target x y w h], x + (w + gap)).

Definition createTargets (s : Playground) : option Playground :=
  let gap := row_gap (width s) in
  let size := row_size (width s) in
  let x := gap in
  let y := gap in
  let w := size - gap in
  let h := size - gap in
  ts ← for_loop (targetsLen s) 0 (shift_body gap) (targets s);
  st ← for_loop targetsInRow 0 (push_body y w h gap) (ts, x);
  Some (set_targetsLen (set_targets s st.1) (length st.1)).

(** [drawBullets], lines 180-208. *)
Definition drawBullets_body (bulletStep : Q) (i : nat) (bs : list Bullet)
  : option (list Bullet) :=
  match bs !! i with
  | None => None
  | Some bullet =>
      match bullet_status bullet with
      | Hit | Miss => Some bs
      | InFlight =>
          if num_le (bullet_y bullet + bullet_radius bullet) 0
          then Some (<[i := Bullet_set_status bullet Miss]> bs)
          else Some (<[i := Bullet_set_y bullet (bullet_y bullet - bulletStep)]> bs)
      end
  end.

Definition drawBullets (s : Playground) : option Playground :=
  bs ← for_loop (bulletsLen s) 0 (drawBullets_body (bulletStep s)) (bullets s);
  Some (set_bullets s bs).

(** [drawStats], lines 261-284: the two counters over the cached length. *)
Definition drawStats_body (bs : list Bullet) (i : nat) (c : nat * nat)
  : option (nat * nat) :=
  match bs !! i with
  | None => None
  | Some bullet =>
      match bullet_status bullet with
      | Hit => Some (S c.1, c.2)
      | Miss => Some (c.1, S c.2)
      | InFlight => Some c
      end
  end.

Definition drawStats (s : Playground) : option Playground :=
  c ← for_loop (bulletsLen s) 0 (drawStats_body (bullets s)) (0%nat, 0%nat);
  Some (set_stats s (Stats_update (stats s) (bulletsLen s) c.1 c.2)).

(** [checkGameOver], lines 315-319.  [closest && e] is [closest] itself when
    that is [null] or [undefined].  A reference always points to a live
    object; an index outside [targets] has no counterpart in the program. *)
Definition checkGameOver (s : Playground) : option Playground :=
  match closestTarget s with
  | RNull => Some (set_gameOver s JNull)
  | RUndefined => Some (set_gameOver s JUndefined)
  | RObj c =>
      closest ← targets s !! c;
      Some (set_gameOver s
              (JBool (num_ge (target_y closest + target_height closest)
                             (gun_y (gun s)))))
  end.

(** [moveGunRight] and [moveGunLeft], lines 321-329. *)
Definition moveGunRight (s : Playground) : Playground :=
  set_gun s (Gun_moveTo (gun s) (gun_x (gun s) + gunStep s)).
Definition moveGunLeft (s : Playground) : Playground :=
  set_gun s (Gun_moveTo (gun s) (gun_x (gun s) - gunStep s)).

Section Orchestrator.

(** [Target.hitByBullet(bullet)]: the geometric test of target.ts, opaque to
    the orchestrator, which only uses its boolean answer. *)
Variable hitByBullet : Target → Bullet → bool.

(** The inner loop of [drawTargets], lines 233-240: the first index below the
    cached length whose bullet the target reports as a hit.  Past the end of
    the array the test would receive [undefined] and read its geometry. *)
Fixpoint find_hitBullet (n j : nat) (target : Target) (bs : list Bullet)
  : option (option nat) :=
  match n with
  | O => Some None
  | S n' =>
      match bs !! j with
      | None => None
      | Some bullet =>
          if hitByBullet target bullet then Some (Some j)
          else find_hitBullet n' (S j) target bs
      end
  end.

(** [drawTargets], lines 210-259.  The loop state is the two arrays (targets
    and bullets are mutated in place) and the local [closestTarget]. *)
Definition drawTargets_body (bulletsLen : nat) (i : nat)
    (st : list Target * list Bullet * Ref)
  : option (list Target * list Bullet * Ref) :=
  let '(ts, bs, closestTarget) := st in
  match ts !! i with
  | None => None
  | Some target =>
      if target_hit target then Some st
      else
        hitBullet ← find_hitBullet bulletsLen 0 target bs;
        match hitBullet with
        | Some j =>
            bullet ← bs !! j;
            Some (<[i := Target_set_hit target true]> ts,
                  <[j := Bullet_set_status bullet Hit]> bs,
                  closestTarget)
        | None =>
            match closestTarget with
            | RObj c =>
                closest ← ts !! c;
                if num_gt (target_y target + target_height target)
                          (target_y closest + target_height closest)
                then Some (ts, bs, RObj i)
                else Some st
            | _ => None
            end
        end
  end.

Definition drawTargets (s : Playground) : option Playground :=
  let closestTarget :=
    match targets s !! 0%nat with Some _ => RObj 0 | None => RUndefined end in
  st ← for_loop (targetsLen s) 0 (drawTargets_body (bulletsLen s))
         (targets s, bullets s, closestTarget);
  Some (set_closestTarget (set_bullets (set_targets s st.1.1) st.1.2) st.2).

(** [draw], lines 161-174. *)
Definition draw (s : Playground) : option Playground :=
  s1 ← drawBullets s;
  s2 ← drawTargets s1;
  s3 ← drawStats s2;
  checkGameOver s3.

(** [newGame], lines 53-69. *)
Definition newGame (c : Constructed) : option Playground :=
  let s := mkPlayground (c_width c) (c_height c) (JBool false)
             (c_gun c) (c_gunStep c)
             [] 0 (c_bulletStep c)
             [] 0 RNull
             (Stats_update (c_stats c) 0 0 0) in
  s1 ← createTargets s;
  draw s1.

(** The calls a driver can make during a session, and a session's trace. *)
Inductive Op := CreateBullet | CreateTargets | Draw | MoveGunLeft | MoveGunRight.

Definition step (o : Op) (s : Playground) : option Playground :=
  match o with
  | CreateBullet => Some (createBullet s)
  | CreateTargets => createTargets s
  | Draw => draw s
  | MoveGunLeft => Some (moveGunLeft s)
  | MoveGunRight => Some (moveGunRight s)
  end.

Fixpoint run (ops : list Op) (s : Playground) : option Playground :=
  match ops with
  | [] => Some s
  | o :: ops' => step o s ≫= run ops'
  end.

(** Any sequence of public calls once the first game has started: a session
    call, or [newGame] again on the same object. *)
Inductive Call := Restart | Session (o : Op).

Definition call (k : Call) (s : Playground) : option Playground :=
  match k with
  | Restart => newGame (constructed_of s)
  | Session o => step o s
  end.

Fixpoint calls (ks : list Call) (s : Playground) : option Playground :=
  match ks with
  | [] => Some s
  | k :: ks' => call k s ≫= calls ks'
  end.

End Orchestrator.

(** * Vocabulary of the statements *)

(** The cached lengths agree with the arrays. *)
Definition counters_ok (s : Playground) : Prop :=
  bulletsLen s = length (bullets s) ∧ targetsLen s = length (targets s).

(** The bottom edge of a target, [y + height]. *)
Definition bottom (t : Target) : Q := target_y t + target_height t.

(** One iteration of the loop of [drawBullets], seen from the bullet. *)
Definition moved (step : Q) (b : Bullet) : Bullet :=
  match bullet_status b with
  | InFlight =>
      if num_le (bullet_y b + bullet_radius b) 0
      then Bullet_set_status b Miss
      else Bullet_set_y b (bullet_y b - step)
  | _ => b
  end.

(** One iteration of the first loop of [createTargets], seen from the
    target. *)
Definition shifted (gap : Q) (t : Target) : Target :=
  if negb (target_hit t)
  then Target_set_y t (target_y t + target_height t + gap)
  else t.

(** The targets pushed by [n] iterations of the second loop of
    [createTargets] when it is entered with [x]. *)
Fixpoint pushed (n : nat) (x y w h gap : Q) : list Target :=
  match n with
  | O => []
  | S n' => new_Target x y w h :: pushed n' (x + (w + gap)) y w h gap
  end.

(** Every target moves down, not up, when a row is spawned. *)
Definition descending (s : Playground) : Prop :=
  ∀ i t, targets s !! i = Some t →
    0 <= target_height t + row_gap (width s).

(** The number of calls of [createTargets] in a trace. *)
Fixpoint spawn_calls (ops : list Op) : nat :=
  match ops with
  | [] => 0
  | CreateTargets :: ops' => S (spawn_calls ops')
  | _ :: ops' => spawn_calls ops'
  end.

(** The number of bullets of a list with a given status. *)
Definition count_status (st : BulletStatus) (bs : list Bullet) : nat :=
  length (filter (λ b, bullet_status b = st) bs).


Section Vocabulary.

Variable hitByBullet : Target → Bullet → bool.

(** [bs'] is [bs] where some bullets accepted by the hit test have received
    the status [Hit]: the only way the collision loop writes to [bullets]. *)
Definition hit_only (bs bs' : list Bullet) : Prop :=
  length bs' = length bs
  ∧ ∀ j b, bs !! j = Some b →
      ∃ b', bs' !! j = Some b'
        ∧ (b' = b
           ∨ (b' = Bullet_set_status b Hit ∧ ∃ t, hitByBullet t b = true)).

(** [ts'] is [ts] where some targets that were not hit have been marked as
    hit: the only way the collision loop writes to [targets]. *)
Definition retired_only (ts ts' : list Target) : Prop :=
  length ts' = length ts
  ∧ ∀ i t, ts !! i = Some t →
      ∃ t', ts' !! i = Some t'
        ∧ (t' = t ∨ (target_hit t = false ∧ t' = Target_set_hit t true)).

(** What the local [closestTarget] of [drawTargets] is once the indices below
    [k] have been through the loop: a reference to a target that lies at least
    as low as [targets[0]] and as every target below [k] that is not hit; it is
    the seed [targets[0]] or one of those targets. *)
Definition closest_upto (k : nat) (ts : list Target) (r : Ref) : Prop :=
  ∃ m tm t0,
    r = RObj m ∧ ts !! m = Some tm ∧ ts !! 0%nat = Some t0
    ∧ bottom t0 <= bottom tm
    ∧ (m = 0%nat ∨ ((m < k)%nat ∧ target_hit tm = false))
    ∧ ∀ i t, (i < k)%nat → ts !! i = Some t → target_hit t = false →
        bottom t <= bottom tm.

Definition drawTargets_inv (ts : list Target) (bs : list Bullet) (k : nat)
    (st : list Target * list Bullet * Ref) : Prop :=
  retired_only ts st.1.1 ∧ hit_only bs st.1.2 ∧ closest_upto k st.1.1 st.2.

(** How far the status of a bullet can be from an earlier status [b]: a
    [Hit] stays a [Hit]; a [Miss] stays a [Miss] unless the hit test has
    accepted some bullet whose status was [Miss]. *)
Definition forward (b b' : Bullet) : Prop :=
  match bullet_status b with
  | InFlight => True
  | Hit => bullet_status b' = Hit
  | Miss =>
      bullet_status b' = Miss
      ∨ (bullet_status b' = Hit
         ∧ ∃ t b0, bullet_status b0 = Miss ∧ hitByBullet t b0 = true)
  end.

(** What one call of [draw] that returns normally does to the state. *)
Record frame (s s' : Playground) : Prop := mkFrame {
  frame_width : width s' = width s;
  frame_height : height s' = height s;
  frame_gun : gun s' = gun s;
  frame_gunStep : gunStep s' = gunStep s;
  frame_bulletStep : bulletStep s' = bulletStep s;
  frame_bulletsLen : bulletsLen s' = bulletsLen s;
  frame_targetsLen : targetsLen s' = targetsLen s;
  frame_bullets_bound : (bulletsLen s <= length (bullets s))%nat;
  frame_targets_bound : (targetsLen s <= length (targets s))%nat;
  frame_bullets :
    hit_only ((moved (bulletStep s) <$> take (bulletsLen s) (bullets s))
              ++ drop (bulletsLen s) (bullets s))
             (bullets s');
  frame_targets : retired_only (targets s) (targets s');
  frame_closest :
    match targets s with
    | [] => closestTarget s' = RUndefined
    | _ :: _ => closest_upto (targetsLen s) (targets s') (closestTarget s')
    end;
  frame_stats :
    stats s' = Stats_update (stats s) (bulletsLen s)
                 (count_status Hit (take (bulletsLen s) (bullets s')))
                 (count_status Miss (take (bulletsLen s) (bullets s')));
  frame_gameOver :
    match closestTarget s' with
    | RNull => gameOver s' = JNull
    | RUndefined => gameOver s' = JUndefined
    | RObj c =>
        ∃ t, targets s' !! c = Some t
             ∧ gameOver s' = JBool (num_ge (bottom t) (gun_y (gun s)))
    end
}.

End Vocabulary.


(** * Concrete fields used to exercise the statements *)

(** A hit test for the examples: the bounding box of the bullet's circle
    meets the target's rectangle.  It does not look at the bullet's status. *)
Definition overlaps (t : Target) (b : Bullet) : bool :=
  num_le (target_x t) (bullet_x b + bullet_radius b)
  && num_le (bullet_x b - bullet_radius b) (target_x t + target_width t)
  && num_le (target_y t) (bullet_y b + bullet_radius b)
  && num_le (bullet_y b - bullet_radius b) (target_y t + target_height t).

(** The same test for bullets in flight only. *)
Definition overlaps_in_flight (t : Target) (b : Bullet) : bool :=
  match bullet_status b with
  | InFlight => overlaps t b
  | _ => false
  end.

(** A 1200 x 800 field with no bullet and no target: the state in which
    [newGame] calls [createTargets]. *)
Definition empty_field : Playground :=
  mkPlayground 1200 800 (JBool false) (mkGun 564 668 72 72) 20
    [] 0 8 [] 0 RNull (mkStats 24 760 20 0 0 0).

(** The same field with three bullets: one in flight whose lower edge is
    still inside the field, one in flight that has left the field, one that
    has hit. *)
Definition three_bullets : Playground :=
  mkPlayground 1200 800 (JBool false) (mkGun 564 668 72 72) 20
    [mkBullet 600 (-8) 12 InFlight; mkBullet 600 (-12) 12 InFlight;
     mkBullet 600 92 12 Hit] 3 8
    [] 0 RNull (mkStats 24 760 20 0 0 0).




(** The standard field, 1200 x 800. *)
Definition standard_field : Constructed := constructor 1200 800.


(** A hit test that accepts every bullet, and one that accepts every bullet
    once the target has descended below the first row of the standard field. *)
Definition every_bullet (_ : Target) (_ : Bullet) : bool := true.
Definition once_descended (t : Target) (_ : Bullet) : bool :=
  num_gt (target_y t) 22.

(** The standard field with one target of the first row and one bullet that
    has left the field and been marked as a miss. *)
Definition missed_bullet : Playground :=
  mkPlayground 1200 800 (JBool false) (mkGun 564 668 72 72) 20
    [mkBullet 600 (-12) 12 Miss] 1 8
    [mkTarget 22 22 76 76 false] 1 (RObj 0) (mkStats 24 760 20 1 0 1).



(** The standard field late in a game: the target at index 0 was hit in the
    first row; a target of the same row that was not hit has descended six
    rows and its bottom edge, [y = 686], is below the gun's [y = 668]. *)
Definition gun_line : Playground :=
  mkPlayground 1200 800 (JBool false) (mkGun 564 668 72 72) 20
    [] 0 8
    [mkTarget 22 22 76 76 true; mkTarget 610 610 76 76 false] 2 (RObj 0)
    (mkStats 24 760 20 0 0 0).

(** A hit test for a whole session: a target in the leftmost column is hit
    by any bullet, and a target that has descended six rows is hit by any
    bullet fired left of the field's centre. *)
Definition column_or_deep (t : Target) (b : Bullet) : bool :=
  num_le (target_x t) 22
  || (num_ge (target_y t) 610 && num_gt 600 (bullet_x b)).


(** A session on the standard field with the hit test [overlaps]: six
    spawns after [newGame], a frame, one more spawn, a frame. *)
Definition late_game : Playground :=
  Eval vm_compute in
    default empty_field
      (newGame overlaps standard_field ≫= run overlaps (replicate 6 CreateTargets)).
Definition late_frame : Playground :=
  Eval vm_compute in default empty_field (draw overlaps late_game).
Definition late_spawn : Playground :=
  Eval vm_compute in
    default empty_field (run overlaps [CreateTargets] late_frame).
Definition late_next : Playground :=
  Eval vm_compute in default empty_field (draw overlaps late_spawn).


(** The number of calls of [createBullet] and of [draw] in a trace. *)
Fixpoint fire_calls (ops : list Op) : nat :=
  match ops with
  | [] => 0
  | CreateBullet :: ops' => S (fire_calls ops')
  | _ :: ops' => fire_calls ops'
  end.

Fixpoint draw_calls (ops : list Op) : nat :=
  match ops with
  | [] => 0
  | Draw :: ops' => S (draw_calls ops')
  | _ :: ops' => draw_calls ops'
  end.


(** A hit test that reads the geometry of the bullet only, not its status. *)
Definition status_blind (hitByBullet : Target → Bullet → bool) : Prop :=
  ∀ t b st, hitByBullet t (Bullet_set_status b st) = hitByBullet t b.


(** [three_bullets] with two targets of the first row; the bullet that has
    hit still lies inside the first of them. *)
Definition under_fire : Playground :=
  mkPlayground 1200 800 (JBool false) (mkGun 564 668 72 72) 20
    [mkBullet 600 (-8) 12 InFlight; mkBullet 600 (-12) 12 InFlight;
     mkBullet 600 92 12 Hit] 3 8
    [mkTarget 564 22 76 76 false; mkTarget 22 22 76 76 false] 2 RNull
    (mkStats 24 760 20 0 0 0).


(** The layout that the constructor fixed is still in place: the field's
    size, the two steps, the position of the statistics and the gun's [y]. *)
Definition same_layout (c : Constructed) (s : Playground) : Prop :=
  width s = c_width c ∧ height s = c_height c
  ∧ gunStep s = c_gunStep c ∧ bulletStep s = c_bulletStep c
  ∧ stats_x (stats s) = stats_x (c_stats c)
  ∧ stats_y (stats s) = stats_y (c_stats c)
  ∧ stats_fontSize (stats s) = stats_fontSize (c_stats c)
  ∧ gun_y (gun s) = gun_y (c_gun c).

(** * Properties *)

(** ** Loops *)

(** A loop whose body succeeds on every state satisfying the invariant
    terminates normally in a state satisfying the invariant. *)
Lemma for_loop_total {St : Type} (P : nat → St → Prop)
    (body : nat → St → option St) (n i : nat) (s : St) :
  P i s →
  (∀ j t, (i <= j < i + n)%nat → P j t → ∃ t', body j t = Some t' ∧ P (S j) t') →
  ∃ s', for_loop n i body s = Some s' ∧ P (i + n)%nat s'.
Proof.
  revert i s. induction n as [|n IH]; intros i s Hs Hbody; simpl.
  - exists s. by rewrite Nat.add_0_r.
  - destruct (Hbody i s) as (t' & Ht' & HP); [lia | done |].
    rewrite Ht'. simpl.
    destruct (IH (S i) t') as (s' & Hs' & HP'); [done | |].
    + intros j t Hj. apply Hbody. lia.
    + exists s'. split; [done |]. by replace (i + S n)%nat with (S i + n)%nat by lia.
Qed.

(** Partial correctness: an invariant kept by every successful iteration
    holds when the loop returns. *)
Lemma for_loop_inv {St : Type} (P : nat → St → Prop)
    (body : nat → St → option St) (n i : nat) (s s' : St) :
  P i s →
  (∀ j t t', (i <= j < i + n)%nat → P j t → body j t = Some t' → P (S j) t') →
  for_loop n i body s = Some s' →
  P (i + n)%nat s'.
Proof.
  revert i s. induction n as [|n IH]; intros i s Hs Hbody Hrun; simpl in Hrun.
  - rewrite Nat.add_0_r. by simplify_eq.
  - destruct (body i s) as [t|] eqn:Ht; simpl in Hrun; [|done].
    replace (i + S n)%nat with (S i + n)%nat by lia.
    apply (IH (S i) t); [| |done].
    + apply (Hbody i s); [lia | done | done].
    + intros j u u' Hj. apply Hbody. lia.
Qed.

(** A loop that rewrites the element at its index with [f] maps [f] over the
    range it runs through. *)
Lemma for_loop_map {A : Type} (f : A → A) (body : nat → list A → option (list A))
    (n i : nat) (l : list A) :
  (∀ j k a, k !! j = Some a → body j k = Some (<[j := f a]> k)) →
  (i + n <= length l)%nat →
  for_loop n i body l
  = Some (take i l ++ (f <$> take n (drop i l)) ++ drop (i + n) l).
Proof.
  intros Hbody. revert i l. induction n as [|n IH]; intros i l Hlen; simpl.
  - by rewrite Nat.add_0_r, take_drop.
  - destruct (lookup_lt_is_Some_2 l i) as [a Ha]; [lia |].
    rewrite (Hbody _ _ _ Ha). simpl.
    rewrite IH by (rewrite length_insert; lia).
    f_equal.
    rewrite (take_S_r (<[i:=f a]> l) i (f a))
      by (apply list_lookup_insert_eq; lia).
    rewrite take_insert_ge by lia.
    rewrite !drop_insert_lt by lia.
    rewrite (drop_S l a i Ha). simpl.
    rewrite <- (assoc_L (++)). simpl.
    by replace (i + S n)%nat with (S i + n)%nat by lia.
Qed.

Lemma for_loop_map_0 {A : Type} (f : A → A)
    (body : nat → list A → option (list A)) (n : nat) (l : list A) :
  (∀ j k a, k !! j = Some a → body j k = Some (<[j := f a]> k)) →
  (n <= length l)%nat →
  for_loop n 0 body l = Some ((f <$> take n l) ++ drop n l).
Proof. intros Hb Hn. by rewrite (for_loop_map f) by done. Qed.

(** A loop that reads past the end of the array throws. *)
Lemma for_loop_overrun {St : Type} (len : St → nat)
    (body : nat → St → option St) (n i : nat) (s : St) :
  (∀ j t, (len t <= j)%nat → body j t = None) →
  (∀ j t t', body j t = Some t' → len t' = len t) →
  (i <= len s < i + n)%nat →
  for_loop n i body s = None.
Proof.
  intros Hnone Hlen. revert i s. induction n as [|n IH]; intros i s Hl; simpl.
  - lia.
  - destruct (body i s) as [t|] eqn:Ht; [|done]. simpl.
    apply IH. rewrite (Hlen _ _ _ Ht).
    destruct (decide (i < len s)%nat); [lia |].
    rewrite Hnone in Ht; [done | lia].
Qed.

(** Hence a loop from 0 that returns has stayed inside the array. *)
Lemma for_loop_Some_bound {St : Type} (len : St → nat)
    (body : nat → St → option St) (n : nat) (s s' : St) :
  (∀ j t, (len t <= j)%nat → body j t = None) →
  (∀ j t t', body j t = Some t' → len t' = len t) →
  for_loop n 0 body s = Some s' →
  (n <= len s)%nat.
Proof.
  intros Hnone Hlen Hrun. destruct (decide (n <= len s)%nat); [done |].
  rewrite (for_loop_overrun len) in Hrun; [done | done | done | lia].
Qed.

Lemma lookup_map_prefix {A : Type} (f : A → A) (n : nat) (l : list A) (j : nat) :
  (n <= length l)%nat →
  ((f <$> take n l) ++ drop n l) !! j
  = if decide (j < n)%nat then f <$> l !! j else l !! j.
Proof.
  intros Hn. case_decide.
  - rewrite lookup_app_l by (rewrite length_fmap, length_take; lia).
    by rewrite list_lookup_fmap, lookup_take_lt.
  - rewrite lookup_app_r by (rewrite length_fmap, length_take; lia).
    rewrite length_fmap, length_take, lookup_drop. f_equal. lia.
Qed.

Lemma length_map_prefix {A : Type} (f : A → A) (n : nat) (l : list A) :
  length ((f <$> take n l) ++ drop n l) = length l.
Proof. rewrite length_app, length_fmap, length_take, length_drop. lia. Qed.

(** ** Comparisons *)


Lemma num_le_false a b : num_le a b = false ↔ ¬ a <= b.
Proof.
  unfold num_le. rewrite <- Qle_bool_iff. destruct (Qle_bool a b); naive_solver.
Qed.

Lemma num_ge_true a b : num_ge a b = true ↔ b <= a.
Proof. apply Qle_bool_iff. Qed.

Lemma num_gt_false a b : num_gt a b = false ↔ a <= b.
Proof.
  unfold num_gt. rewrite <- Qle_bool_iff. destruct (Qle_bool a b); naive_solver.
Qed.

Lemma num_gt_true a b : num_gt a b = true ↔ b < a.
Proof.
  unfold num_gt. split.
  - intros H. apply Qnot_le_lt. intros Hle.
    apply Qle_bool_iff in Hle. by rewrite Hle in H.
  - intros H. destruct (Qle_bool a b) eqn:E; [|done].
    apply Qle_bool_iff in E. by apply Qlt_not_le in H.
Qed.

(** ** Bullet motion *)

Lemma drawBullets_body_moved step j k a :
  k !! j = Some a → drawBullets_body step j k = Some (<[j := moved step a]> k).
Proof.
  intros Ha. unfold drawBullets_body, moved. rewrite Ha.
  destruct (bullet_status a); [| by rewrite list_insert_id ..].
  by destruct (num_le _ _).
Qed.

Lemma drawBullets_closed s :
  (bulletsLen s <= length (bullets s))%nat →
  drawBullets s
  = Some (set_bullets s ((moved (bulletStep s) <$> take (bulletsLen s) (bullets s))
                         ++ drop (bulletsLen s) (bullets s))).
Proof.
  intros Hn. unfold drawBullets.
  rewrite (for_loop_map_0 (moved (bulletStep s))); [done | | done].
  intros. by apply drawBullets_body_moved.
Qed.

Lemma drawBullets_full s :
  bulletsLen s = length (bullets s) →
  drawBullets s = Some (set_bullets s (moved (bulletStep s) <$> bullets s)).
Proof.
  intros Hn. rewrite drawBullets_closed by lia.
  by rewrite Hn, firstn_all, drop_all, app_nil_r.
Qed.

(** ** Target spawning *)

Lemma shift_body_shifted gap j k a :
  k !! j = Some a → shift_body gap j k = Some (<[j := shifted gap a]> k).
Proof.
  intros Ha. unfold shift_body, shifted. rewrite Ha.
  destruct (negb (target_hit a)); [done |]. by rewrite list_insert_id.
Qed.

Lemma push_loop n i y w h gap ts x :
  ∃ x', for_loop n i (push_body y w h gap) (ts, x)
        = Some (ts ++ pushed n x y w h gap, x').
Proof.
  revert i ts x. induction n as [|n IH]; intros i ts x; simpl.
  - exists x. by rewrite app_nil_r.
  - destruct (IH (S i) (ts ++ [new_Target x y w h]) (x + (w + gap))) as [x' Hx'].
    exists x'. rewrite Hx'. by rewrite <- (assoc_L (++)).
Qed.

Lemma createTargets_closed s :
  (targetsLen s <= length (targets s))%nat →
  let gap := row_gap (width s) in
  let size := row_size (width s) in
  let ts := (shifted gap <$> take (targetsLen s) (targets s))
            ++ drop (targetsLen s) (targets s)
            ++ pushed targetsInRow gap gap (size - gap) (size - gap) gap in
  createTargets s = Some (set_targetsLen (set_targets s ts) (length ts)).
Proof.
  intros Hn gap size ts. unfold createTargets.
  rewrite (for_loop_map_0 (shifted (row_gap (width s)))); [| | done].
  2: { intros. by apply shift_body_shifted. }
  cbn [mbind option_bind].
  destruct (push_loop targetsInRow 0 (row_gap (width s))
              (row_size (width s) - row_gap (width s))
              (row_size (width s) - row_gap (width s)) (row_gap (width s))
              ((shifted (row_gap (width s)) <$> take (targetsLen s) (targets s))
               ++ drop (targetsLen s) (targets s)) (row_gap (width s)))
    as [x' Hx'].
  rewrite Hx'. cbn [mbind option_bind fst]. subst ts gap size.
  by rewrite <- (assoc_L (++)).
Qed.

Lemma pushed_length n x y w h gap : length (pushed n x y w h gap) = n.
Proof. revert x. induction n as [|n IH]; intros x; simpl; [done | by rewrite IH]. Qed.

Lemma pushed_lookup n x y w h gap i t :
  pushed n x y w h gap !! i = Some t →
  target_y t = y ∧ target_width t = w ∧ target_height t = h ∧ target_hit t = false.
Proof.
  revert x i. induction n as [|n IH]; intros x [|i] Ht; simpl in Ht; try done.
  - by simplify_eq.
  - by apply (IH _ _ Ht).
Qed.





(** ** Collision resolution *)

Section Collision.

Variable hitByBullet : Target → Bullet → bool.

Lemma find_hitBullet_Some n j target bs k :
  find_hitBullet hitByBullet n j target bs = Some (Some k) →
  (j <= k < j + n)%nat ∧ ∃ b, bs !! k = Some b ∧ hitByBullet target b = true.
Proof.
  revert j. induction n as [|n IH]; intros j H; simpl in H; [done |].
  destruct (bs !! j) as [b|] eqn:Hb; [|done].
  destruct (hitByBullet target b) eqn:Hhit.
  - simplify_eq. split; [lia |]. by exists b.
  - destruct (IH _ H) as [? ?]. split; [lia | done].
Qed.

Lemma find_hitBullet_total n j target bs :
  (j + n <= length bs)%nat →
  ∃ r, find_hitBullet hitByBullet n j target bs = Some r.
Proof.
  revert j. induction n as [|n IH]; intros j Hn; simpl; [by eexists |].
  destruct (lookup_lt_is_Some_2 bs j) as [b Hb]; [lia |]. rewrite Hb.
  destruct (hitByBullet target b); [by eexists |]. apply IH. lia.
Qed.

Lemma hit_only_refl bs : hit_only hitByBullet bs bs.
Proof. split; [done |]. intros j b Hb. exists b. by split; [|left]. Qed.

Lemma hit_only_step bs bs' j b t :
  hit_only hitByBullet bs bs' → bs' !! j = Some b → hitByBullet t b = true →
  hit_only hitByBullet bs (<[j := Bullet_set_status b Hit]> bs').
Proof.
  intros [Hlen Hpt] Hb Hhit. split; [by rewrite length_insert |].
  intros j0 b0 Hb0. destruct (Hpt _ _ Hb0) as (b0' & Hb0' & Hrel).
  destruct (decide (j0 = j)) as [->|Hne].
  - exists (Bullet_set_status b Hit). split.
    + apply list_lookup_insert_eq. by eapply lookup_lt_Some.
    + right. simplify_eq. destruct Hrel as [->|[-> Hex]]; [by eauto |].
      split; [done | exact Hex].
  - exists b0'. split; [|done]. by rewrite list_lookup_insert_ne.
Qed.

Lemma retired_only_refl ts : retired_only ts ts.
Proof. split; [done |]. intros i t Ht. exists t. by split; [|left]. Qed.

Lemma retired_only_step ts ts' i t :
  retired_only ts ts' → ts' !! i = Some t → target_hit t = false →
  retired_only ts (<[i := Target_set_hit t true]> ts').
Proof.
  intros [Hlen Hpt] Ht Hhit. split; [by rewrite length_insert |].
  intros i0 t0 Ht0. destruct (Hpt _ _ Ht0) as (t0' & Ht0' & Hrel).
  destruct (decide (i0 = i)) as [->|Hne].
  - exists (Target_set_hit t true). split.
    + apply list_lookup_insert_eq. by eapply lookup_lt_Some.
    + simplify_eq. destruct Hrel as [->|[? ->]]; [by right | done].
  - exists t0'. split; [|done]. by rewrite list_lookup_insert_ne.
Qed.

Lemma bottom_set_hit t h : bottom (Target_set_hit t h) = bottom t.
Proof. done. Qed.

(** Marking the target at [k] as hit keeps the closest-so-far. *)
Lemma closest_upto_hit k ts r t :
  closest_upto k ts r → ts !! k = Some t →
  closest_upto (S k) (<[k := Target_set_hit t true]> ts) r.
Proof.
  intros (m & tm & t0 & -> & Hm & H0 & Hle & Hm' & Hall) Ht.
  assert (k < length ts)%nat as Hk by by eapply lookup_lt_Some.
  assert (∀ i u, ts !! i = Some u →
            ∃ u', <[k := Target_set_hit t true]> ts !! i = Some u'
                  ∧ bottom u' = bottom u
                  ∧ (i ≠ k → u' = u) ∧ (i = k → target_hit u' = true)) as Hlk.
  { intros i u Hu. destruct (decide (i = k)) as [->|Hne].
    - exists (Target_set_hit t true). rewrite list_lookup_insert_eq by done.
      simplify_eq. done.
    - exists u. rewrite list_lookup_insert_ne by done. done. }
  destruct (Hlk _ _ Hm) as (tm' & Hm1 & Hbm & Hne_m & _).
  destruct (Hlk _ _ H0) as (t0' & H01 & Hb0 & _).
  exists m, tm', t0'. split_and!; [done | done | done | | |].
  - by rewrite Hbm, Hb0.
  - destruct Hm' as [->|[Hlt Hun]]; [by left |].
    right. split; [lia |]. rewrite Hne_m by lia. done.
  - intros i u Hi Hu Hun. rewrite Hbm.
    destruct (decide (i = k)) as [->|Hne].
    + rewrite list_lookup_insert_eq in Hu by done. by simplify_eq.
    + rewrite list_lookup_insert_ne in Hu by done. apply (Hall i u); [lia | done ..].
Qed.

(** Comparing the target at [k], which is not hit, with the closest-so-far. *)
Lemma closest_upto_compare k ts m tm t :
  closest_upto k ts (RObj m) → ts !! m = Some tm → ts !! k = Some t →
  target_hit t = false →
  closest_upto (S k) ts
    (if num_gt (bottom t) (bottom tm) then RObj k else RObj m).
Proof.
  intros (m' & tm' & t0 & Heq & Hm & H0 & Hle & Hm' & Hall) Htm Ht Hun.
  injection Heq as <-. rewrite Htm in Hm. injection Hm as <-.
  destruct (num_gt (bottom t) (bottom tm)) eqn:Hcmp.
  - apply num_gt_true in Hcmp. apply Qlt_le_weak in Hcmp.
    exists k, t, t0. split_and!; [done | done | done | | |].
    + by eapply Qle_trans.
    + right. split; [lia | done].
    + intros i u Hi Hu Hu'. destruct (decide (i = k)) as [->|Hne].
      * simplify_eq. apply Qle_refl.
      * eapply Qle_trans; [|exact Hcmp]. apply (Hall i u); [lia | done ..].
  - apply num_gt_false in Hcmp.
    exists m, tm, t0. split_and!; [done | done | done | done | |].
    + destruct Hm' as [->|[? ?]]; [by left | right; split; [lia | done]].
    + intros i u Hi Hu Hu'. destruct (decide (i = k)) as [->|Hne].
      * by simplify_eq.
      * apply (Hall i u); [lia | done ..].
Qed.

Lemma drawTargets_body_inv ts bs n k st st' :
  drawTargets_inv hitByBullet ts bs k st →
  drawTargets_body hitByBullet n k st = Some st' →
  drawTargets_inv hitByBullet ts bs (S k) st'.
Proof.
  destruct st as [[ts1 bs1] r]. intros (Hts & Hbs & Hcl) Hbody.
  cbn [fst snd] in Hts, Hbs, Hcl.
  unfold drawTargets_body in Hbody.
  destruct (ts1 !! k) as [t|] eqn:Ht; [|done].
  destruct (target_hit t) eqn:Hhit.
  { simplify_eq. split_and!; [done | done |]. cbn [fst snd].
    destruct Hcl as (m & tm & t0 & -> & Hm & H0 & Hle & Hm' & Hall).
    exists m, tm, t0. split_and!; [done | done | done | done | |].
    - destruct Hm' as [->|[? ?]]; [by left | right; split; [lia | done]].
    - intros i u Hi Hu Hu'. destruct (decide (i = k)) as [->|Hne].
      + rewrite Ht in Hu. injection Hu as <-. congruence.
      + apply (Hall i u); [lia | done ..]. }
  destruct (find_hitBullet hitByBullet n 0 t bs1) as [[j|]|] eqn:Hfind;
    simpl in Hbody; [| |done].
  - destruct (bs1 !! j) as [b|] eqn:Hb; simpl in Hbody; [|done].
    simplify_eq.
    apply find_hitBullet_Some in Hfind as (_ & b' & Hb' & Hhb). simplify_eq.
    split_and!; cbn [fst snd].
    + by apply retired_only_step.
    + by eapply hit_only_step.
    + by apply closest_upto_hit.
  - destruct r as [| |m]; [done | done |].
    destruct (ts1 !! m) as [tm|] eqn:Hm; simpl in Hbody; [|done].
    pose proof (closest_upto_compare k ts1 m tm t Hcl Hm Ht Hhit) as Hc.
    fold (bottom t) in Hbody. fold (bottom tm) in Hbody.
    destruct (num_gt (bottom t) (bottom tm)); simplify_eq; by split_and!.
Qed.

Lemma drawTargets_body_total ts bs n k st :
  drawTargets_inv hitByBullet ts bs k st →
  (k < length ts)%nat → (n <= length bs)%nat →
  ∃ st', drawTargets_body hitByBullet n k st = Some st'.
Proof.
  destruct st as [[ts1 bs1] r]. intros ([Hlt _] & [Hlb _] & Hcl) Hk Hn.
  simpl in *. unfold drawTargets_body.
  destruct (lookup_lt_is_Some_2 ts1 k) as [t Ht]; [lia |]. rewrite Ht.
  destruct (target_hit t); [by eexists |].
  destruct (find_hitBullet_total n 0 t bs1) as [res Hres]; [lia |].
  rewrite Hres. simpl. destruct res as [j|].
  - apply find_hitBullet_Some in Hres as (_ & b & Hb & _). rewrite Hb. by eexists.
  - destruct Hcl as (m & tm & t0 & -> & Hm & _). rewrite Hm. simpl.
    destruct (num_gt _ _); by eexists.
Qed.

End Collision.

(** ** The four stages of a frame *)

Lemma drawBullets_Some s s1 :
  drawBullets s = Some s1 →
  (bulletsLen s <= length (bullets s))%nat
  ∧ s1 = set_bullets s ((moved (bulletStep s) <$> take (bulletsLen s) (bullets s))
                        ++ drop (bulletsLen s) (bullets s)).
Proof.
  intros H.
  assert (bulletsLen s <= length (bullets s))%nat as Hn.
  { unfold drawBullets in H.
    destruct (for_loop _ _ _ _) as [bs|] eqn:Hloop; [|done].
    apply (for_loop_Some_bound length) in Hloop; [done | |].
    - intros j t Hj. unfold drawBullets_body.
      by rewrite (proj2 (lookup_ge_None t j)).
    - intros j t t' Hb. unfold drawBullets_body in Hb.
      destruct (t !! j) as [b|]; [|done].
      destruct (bullet_status b); [|by simplify_eq ..].
      destruct (num_le _ _); simplify_eq; by rewrite length_insert. }
  split; [done |]. rewrite drawBullets_closed in H by done. by simplify_eq.
Qed.

Lemma count_status_cons st b bs :
  count_status st (b :: bs)
  = ((if decide (bullet_status b = st) then 1 else 0) + count_status st bs)%nat.
Proof. unfold count_status. rewrite filter_cons. by case_decide. Qed.

Lemma drawStats_body_lookup bs i c b :
  bs !! i = Some b →
  drawStats_body bs i c
  = Some (match bullet_status b with
          | InFlight => c
          | Hit => (S c.1, c.2)
          | Miss => (c.1, S c.2)
          end).
Proof. intros Hb. unfold drawStats_body. rewrite Hb. by destruct (bullet_status b). Qed.

Lemma drawStats_loop bs n i c :
  (i + n <= length bs)%nat →
  for_loop n i (drawStats_body bs) c
  = Some ((c.1 + count_status Hit (take n (drop i bs)))%nat,
          (c.2 + count_status Miss (take n (drop i bs)))%nat).
Proof.
  revert i c. induction n as [|n IH]; intros i [h m] Hn; cbn [for_loop].
  - unfold count_status. simpl. by rewrite !Nat.add_0_r.
  - destruct (lookup_lt_is_Some_2 bs i) as [b Hb]; [lia |].
    rewrite (drawStats_body_lookup _ _ _ _ Hb), (drop_S _ _ _ Hb).
    cbn [take]. rewrite !count_status_cons.
    destruct (bullet_status b) eqn:E; cbn [mbind option_bind fst snd];
      rewrite IH by lia; cbn [fst snd];
      repeat case_decide; try congruence; f_equal; f_equal; lia.
Qed.

Lemma drawStats_Some s s' :
  drawStats s = Some s' →
  (bulletsLen s <= length (bullets s))%nat
  ∧ s' = set_stats s (Stats_update (stats s) (bulletsLen s)
                        (count_status Hit (take (bulletsLen s) (bullets s)))
                        (count_status Miss (take (bulletsLen s) (bullets s)))).
Proof.
  intros H. unfold drawStats in H.
  destruct (for_loop _ _ _ _) as [c|] eqn:Hloop; [|done].
  assert (bulletsLen s <= length (bullets s))%nat as Hn.
  { apply (for_loop_Some_bound (λ _, length (bullets s))) in Hloop; [done | |].
    - intros j t Hj. unfold drawStats_body.
      by rewrite (proj2 (lookup_ge_None (bullets s) j)).
    - done. }
  split; [done |].
  rewrite drawStats_loop in Hloop by (simpl; lia). simpl in *. by simplify_eq.
Qed.

Section Frame.

Variable hitByBullet : Target → Bullet → bool.

Lemma drawTargets_body_length n j st st' :
  drawTargets_body hitByBullet n j st = Some st' →
  length st'.1.1 = length st.1.1.
Proof.
  destruct st as [[ts bs] r]. unfold drawTargets_body. intros H.
  destruct (ts !! j) as [t|]; [|done].
  destruct (target_hit t); [by simplify_eq |].
  destruct (find_hitBullet _ _ _ _ _) as [[k|]|]; simpl in H; [| |done].
  - destruct (bs !! k); simpl in H; [|done]. simplify_eq. simpl.
    by rewrite length_insert.
  - destruct r as [| |m]; [done | done |].
    destruct (ts !! m); simpl in H; [|done].
    destruct (num_gt _ _); by simplify_eq.
Qed.

Lemma drawTargets_Some s s' :
  drawTargets hitByBullet s = Some s' →
  (targetsLen s <= length (targets s))%nat
  ∧ s' = set_closestTarget (set_bullets (set_targets s (targets s')) (bullets s'))
           (closestTarget s')
  ∧ retired_only (targets s) (targets s')
  ∧ hit_only hitByBullet (bullets s) (bullets s')
  ∧ match targets s with
    | [] => closestTarget s' = RUndefined
    | _ :: _ => closest_upto (targetsLen s) (targets s') (closestTarget s')
    end.
Proof.
  intros H. unfold drawTargets in H.
  destruct (for_loop _ _ _ _) as [st|] eqn:Hloop; [|done].
  simpl in H. injection H as <-. cbn [targets bullets closestTarget set_targets
    set_bullets set_closestTarget].
  assert (targetsLen s <= length (targets s))%nat as Hn.
  { apply (for_loop_Some_bound (λ st, length st.1.1)) in Hloop; [done | |].
    - intros j [[ts bs] r] Hj. unfold drawTargets_body. simpl in Hj.
      by rewrite (proj2 (lookup_ge_None ts j)).
    - intros j t t'. apply drawTargets_body_length. }
  split; [done |]. split; [by destruct s |].
  destruct (targets s) as [|t0 ts] eqn:Hts.
  - simpl in Hn. assert (targetsLen s = 0%nat) as Hz by lia.
    rewrite Hz in Hloop. simpl in Hloop. simplify_eq. simpl.
    split_and!; [apply retired_only_refl | apply hit_only_refl | done].
  - simpl in Hloop.
    apply (for_loop_inv (drawTargets_inv hitByBullet (t0 :: ts) (bullets s)))
      in Hloop.
    + destruct Hloop as (? & ? & ?). done.
    + split_and!; [apply retired_only_refl | apply hit_only_refl |].
      exists 0%nat, t0, t0. split_and!; try done.
      * apply Qle_refl.
      * by left.
      * intros; lia.
    + intros j t t' _. apply drawTargets_body_inv.
Qed.

Lemma drawTargets_total s :
  (targetsLen s <= length (targets s))%nat →
  (bulletsLen s <= length (bullets s))%nat →
  ∃ s', drawTargets hitByBullet s = Some s'.
Proof.
  intros Hn Hb. unfold drawTargets.
  destruct (targets s) as [|t0 ts] eqn:Hts.
  - simpl in Hn. assert (targetsLen s = 0%nat) as -> by lia. simpl. by eexists.
  - simpl.
    destruct (for_loop_total
                (λ k st, drawTargets_inv hitByBullet (t0 :: ts) (bullets s) k st)
                (drawTargets_body hitByBullet (bulletsLen s))
                (targetsLen s) 0 (t0 :: ts, bullets s, RObj 0))
      as (st' & Hst' & _).
    + split_and!; [apply retired_only_refl | apply hit_only_refl |].
      exists 0%nat, t0, t0. split_and!; try done.
      * apply Qle_refl.
      * by left.
      * intros; lia.
    + intros j t Hj Hinv.
      destruct (drawTargets_body_total hitByBullet _ _ (bulletsLen s) j t Hinv)
        as [t' Ht']; [lia | done |].
      exists t'. split; [done |]. by eapply drawTargets_body_inv.
    + rewrite Hst'. simpl. by eexists.
Qed.

End Frame.

(** ** One frame *)

Section Draw.

Variable hitByBullet : Target → Bullet → bool.

Lemma checkGameOver_Some s s' :
  checkGameOver s = Some s' →
  s' = set_gameOver s (gameOver s')
  ∧ match closestTarget s with
    | RNull => gameOver s' = JNull
    | RUndefined => gameOver s' = JUndefined
    | RObj c =>
        ∃ t, targets s !! c = Some t
             ∧ gameOver s' = JBool (num_ge (bottom t) (gun_y (gun s)))
    end.
Proof.
  unfold checkGameOver. intros H.
  destruct (closestTarget s) as [| |c]; [by simplify_eq ..|].
  destruct (targets s !! c) as [t|]; simpl in H; [|done].
  simplify_eq. split; [done |]. by exists t.
Qed.

Lemma draw_frame s s' : draw hitByBullet s = Some s' → frame hitByBullet s s'.
Proof.
  unfold draw. intros H.
  destruct (drawBullets s) as [s1|] eqn:H1; simpl in H; [|done].
  destruct (drawTargets hitByBullet s1) as [s2|] eqn:H2; simpl in H; [|done].
  destruct (drawStats s2) as [s3|] eqn:H3; simpl in H; [|done].
  apply drawBullets_Some in H1 as [Hb1 ->].
  apply drawTargets_Some in H2 as (Ht2 & E2 & Hret & Hhit & Hcl).
  apply drawStats_Some in H3 as [Hb3 ->].
  apply checkGameOver_Some in H as [E4 Hgo].
  rewrite E2 in E4, Hgo, Hb3. cbn in E4, Hgo, Ht2, Hret, Hhit, Hcl, Hb3.
  rewrite E4. cbn.
  split; cbn; done.
Qed.

Lemma draw_total s :
  (bulletsLen s <= length (bullets s))%nat →
  (targetsLen s <= length (targets s))%nat →
  ∃ s', draw hitByBullet s = Some s'.
Proof.
  intros Hb Ht. unfold draw. rewrite drawBullets_closed by done. simpl.
  destruct (drawTargets_total hitByBullet
              (set_bullets s ((moved (bulletStep s) <$> take (bulletsLen s) (bullets s))
                              ++ drop (bulletsLen s) (bullets s))))
    as [s2 H2]; [done | by simpl; rewrite length_map_prefix |].
  rewrite H2. simpl.
  apply drawTargets_Some in H2 as (_ & E2 & [Hlt _] & [Hlb _] & Hcl).
  cbn in Hlt, Hlb, Hcl. rewrite length_map_prefix in Hlb.
  unfold drawStats.
  rewrite drawStats_loop by (rewrite E2; cbn; lia). simpl.
  unfold checkGameOver. rewrite E2. cbn.
  destruct (targets s) as [|t0 ts].
  - rewrite Hcl. by eexists.
  - destruct Hcl as (m & tm & _ & -> & Hm & _). rewrite Hm. simpl. by eexists.
Qed.

End Draw.

(** ** The cached lengths *)

Section Counters.

Variable hitByBullet : Target → Bullet → bool.

Lemma counters_createBullet s : counters_ok s → counters_ok (createBullet s).
Proof. intros [_ Ht]. by split. Qed.

Lemma counters_createTargets s s' :
  createTargets s = Some s' → counters_ok s → counters_ok s'.
Proof.
  intros H [Hb Ht]. rewrite createTargets_closed in H by lia.
  injection H as <-. by split.
Qed.

Lemma counters_draw s s' :
  draw hitByBullet s = Some s' → counters_ok s → counters_ok s'.
Proof.
  intros H [Hb Ht]. apply draw_frame in H.
  destruct H as [_ _ _ _ _ Hbl Htl _ _ [Hlb _] [Hlt _] _ _ _].
  rewrite length_map_prefix in Hlb. split; congruence.
Qed.

Lemma counters_step o s s' :
  step hitByBullet o s = Some s' → counters_ok s → counters_ok s'.
Proof.
  destruct o; simpl; intros H Hok.
  - injection H as <-. by apply counters_createBullet.
  - by eapply counters_createTargets.
  - by eapply counters_draw.
  - by injection H as <-.
  - by injection H as <-.
Qed.

Lemma step_total o s :
  counters_ok s → ∃ s', step hitByBullet o s = Some s'.
Proof.
  intros [Hb Ht]. destruct o; simpl; try by eexists.
  - rewrite createTargets_closed by lia. by eexists.
  - apply draw_total; lia.
Qed.

Lemma run_counters ops s s' :
  run hitByBullet ops s = Some s' → counters_ok s → counters_ok s'.
Proof.
  revert s. induction ops as [|o ops IH]; intros s H Hok; simpl in H.
  - by simplify_eq.
  - destruct (step hitByBullet o s) as [s1|] eqn:H1; simpl in H; [|done].
    apply (IH s1); [done |]. by eapply counters_step.
Qed.

Lemma run_total ops s :
  counters_ok s → ∃ s', run hitByBullet ops s = Some s'.
Proof.
  revert s. induction ops as [|o ops IH]; intros s Hok; simpl; [by eexists |].
  destruct (step_total o s Hok) as [s1 H1]. rewrite H1. simpl.
  apply IH. by eapply counters_step.
Qed.

(** [newGame] always returns, with the cached lengths in step. *)
Lemma newGame_counters c :
  ∃ s, newGame hitByBullet c = Some s ∧ counters_ok s.
Proof.
  unfold newGame. rewrite createTargets_closed by (simpl; lia).
  cbn [mbind option_bind].
  match goal with |- ∃ s, draw _ ?s1 = _ ∧ _ => set (st := s1) end.
  assert (counters_ok st) as Hok by by split.
  destruct (draw_total hitByBullet st) as [s' Hs'];
    [destruct Hok; lia | destruct Hok; lia |].
  exists s'. split; [done |]. by eapply counters_draw.
Qed.

Lemma calls_counters ks s :
  counters_ok s → ∃ s', calls hitByBullet ks s = Some s' ∧ counters_ok s'.
Proof.
  revert s. induction ks as [|k ks IH]; intros s Hok; simpl; [by eexists |].
  destruct k as [|o]; simpl.
  - destruct (newGame_counters (constructed_of s)) as (s1 & -> & Hok1).
    simpl. by apply IH.
  - destruct (step_total o s Hok) as [s1 H1]. rewrite H1. simpl.
    apply IH. by eapply counters_step.
Qed.

(** C10.  From the first [newGame] on, after any sequence of public calls
    ([newGame] again, [createBullet], [createTargets], [draw], the gun moves)
    every call has returned normally and the cached lengths are those of the
    arrays: [bulletsLen = bullets.length] and [targetsLen = targets.length]. *)
Theorem cached_lengths_agree (c : Constructed) (ks : list Call) :
  ∃ s, newGame hitByBullet c ≫= calls hitByBullet ks = Some s
       ∧ bulletsLen s = length (bullets s)
       ∧ targetsLen s = length (targets s).
Proof.
  destruct (newGame_counters c) as (s0 & -> & Hok0). simpl.
  destruct (calls_counters ks s0 Hok0) as (s & Hs & Hok). by exists s.
Qed.

End Counters.

(** ** Statistics *)





(** ** Empty field *)

(** C5, as the code has it.  With no target (and the cached lengths in step)
    a frame returns normally; it leaves [closestTarget] [undefined], the
    value of [targets[0]] (not the [null] that [newGame] writes); and
    [gameOver] is that same [undefined], which is falsy (not the boolean
    [false]). *)
Theorem draw_without_targets (hitByBullet : Target → Bullet → bool)
    (s : Playground) :
  targets s = [] →
  counters_ok s →
  ∃ s', draw hitByBullet s = Some s'
    ∧ targets s' = []
    ∧ closestTarget s' = RUndefined
    ∧ gameOver s' = JUndefined
    ∧ truthy (gameOver s') = false.
Proof.
  intros Hts Hok.
  destruct (draw_total hitByBullet s) as [s' Hs'];
    [destruct Hok; lia | destruct Hok; lia |].
  exists s'. split; [done |].
  apply draw_frame in Hs'.
  destruct Hs' as [_ _ _ _ _ _ _ _ _ _ [Hlt _] Hcl _ Hgo].
  rewrite Hts in Hcl, Hlt. rewrite Hcl in Hgo. rewrite Hgo.
  split_and!; try done. by apply length_zero_iff_nil.
Qed.

(** The statement on the empty standard field. *)
Lemma draw_without_targets_witness :
  targets empty_field = [] ∧ counters_ok empty_field
  ∧ ∃ s', draw overlaps empty_field = Some s'
      ∧ targets s' = []
      ∧ closestTarget s' = RUndefined
      ∧ gameOver s' = JUndefined
      ∧ truthy (gameOver s') = false.
Proof.
  split; [reflexivity |]. split; [split; reflexivity |].
  apply (draw_without_targets overlaps empty_field); [reflexivity |].
  split; reflexivity.
Defined.

(** C5 as stated fails on the empty field: the frame leaves [undefined],
    not [null], in [closestTarget], and [undefined], not [false], in
    [gameOver]. *)
Lemma draw_without_targets_not_null :
  closestTarget <$> draw overlaps empty_field = Some RUndefined
  ∧ RUndefined ≠ RNull
  ∧ gameOver <$> draw overlaps empty_field = Some JUndefined
  ∧ JUndefined ≠ JBool false.
Proof. split_and!; first [discriminate | vm_compute; reflexivity]. Qed.

(** ** Bullet motion in a frame *)




(** ** A new game *)

Lemma for_loop_fixed {St : Type} (body : nat → St → option St)
    (n i : nat) (s : St) :
  (∀ j, (i <= j < i + n)%nat → body j s = Some s) →
  for_loop n i body s = Some s.
Proof.
  revert i. induction n as [|n IH]; intros i Hb; simpl; [done |].
  rewrite Hb by lia. simpl. apply IH. intros j Hj. apply Hb. lia.
Qed.

Section NewGame.

Variable hitByBullet : Target → Bullet → bool.

(** A frame on a field with no bullet, where no target is hit and none lies
    lower than [targets[0]]: nothing is hit and the seed stays the closest. *)
Lemma draw_no_bullets s t0 :
  bullets s = [] → bulletsLen s = 0%nat →
  targetsLen s = length (targets s) →
  targets s !! 0%nat = Some t0 →
  (∀ i t, targets s !! i = Some t →
     target_hit t = false ∧ bottom t <= bottom t0) →
  draw hitByBullet s
  = Some (set_gameOver
            (set_stats (set_closestTarget s (RObj 0))
               (Stats_update (stats s) 0 0 0))
            (JBool (num_ge (bottom t0) (gun_y (gun s))))).
Proof.
  intros Hbs Hbl Htl H0 Hall.
  destruct s as [w h go g gs bs bl bst ts tl ct st].
  cbn [bullets bulletsLen targets targetsLen] in *. subst bs bl tl.
  unfold draw, drawBullets.
  cbn [bullets bulletsLen bulletStep for_loop mbind option_bind].
  unfold drawTargets, set_bullets.
  cbn [bullets bulletsLen targets targetsLen width height gameOver gun gunStep
       bulletStep closestTarget stats].
  rewrite H0.
  rewrite for_loop_fixed; cycle 1.
  { intros j Hj. unfold drawTargets_body.
    destruct (lookup_lt_is_Some_2 ts j) as [t Ht]; [lia |].
    rewrite Ht. destruct (Hall _ _ Ht) as [-> Hle].
    cbn [find_hitBullet mbind option_bind]. rewrite H0.
    cbn [mbind option_bind]. fold (bottom t) (bottom t0).
    by rewrite (proj2 (num_gt_false _ _) Hle). }
  cbn [mbind option_bind fst snd].
  unfold drawStats, set_closestTarget, set_targets, set_bullets.
  cbn [bullets bulletsLen targets targetsLen width height gameOver gun gunStep
       bulletStep closestTarget stats for_loop mbind option_bind fst snd].
  unfold checkGameOver, set_stats.
  cbn [bullets bulletsLen targets targetsLen width height gameOver gun gunStep
       bulletStep closestTarget stats].
  rewrite H0. done.
Qed.

Lemma pushed_bottom n x y w h gap i t :
  pushed n x y w h gap !! i = Some t →
  target_hit t = false ∧ bottom t = y + h.
Proof.
  intros Ht. destruct (pushed_lookup _ _ _ _ _ _ _ _ Ht) as (Hy & _ & Hh & Hhit).
  split; [done |]. unfold bottom. by rewrite Hy, Hh.
Qed.


End NewGame.


(** ** Sessions *)

Lemma createTargets_Some s s' :
  createTargets s = Some s' →
  (targetsLen s <= length (targets s))%nat.
Proof.
  unfold createTargets. intros H.
  destruct (for_loop (targetsLen s) _ _ _) as [ts|] eqn:Hloop; [|done].
  apply (for_loop_Some_bound length) in Hloop; [done | |].
  - intros j t Hj. unfold shift_body. by rewrite (proj2 (lookup_ge_None t j)).
  - intros j t t' Hb. unfold shift_body in Hb.
    destruct (t !! j) as [a|]; [|done].
    destruct (negb _); simplify_eq; [by rewrite length_insert | done].
Qed.

Lemma createTargets_lookup s s' i t :
  createTargets s = Some s' → targets s !! i = Some t →
  targets s' !! i
  = Some (if decide (i < targetsLen s)%nat then shifted (row_gap (width s)) t
          else t).
Proof.
  intros H Ht. pose proof (createTargets_Some _ _ H) as Hn.
  rewrite createTargets_closed in H by done. injection H as <-.
  cbn [targets set_targets set_targetsLen].
  rewrite (assoc_L (++)).
  rewrite lookup_app_l
    by (rewrite length_map_prefix; by eapply lookup_lt_Some).
  rewrite lookup_map_prefix by done. rewrite Ht. by case_decide.
Qed.

Lemma createTargets_fields s s' :
  createTargets s = Some s' →
  width s' = width s ∧ gun s' = gun s ∧ bullets s' = bullets s
  ∧ bulletsLen s' = bulletsLen s ∧ (targetsLen s <= targetsLen s')%nat.
Proof.
  intros H. pose proof (createTargets_Some _ _ H) as Hn.
  rewrite createTargets_closed in H by done. injection H as <-.
  cbn [width gun bullets bulletsLen targetsLen set_targets set_targetsLen].
  split_and!; try done.
  rewrite (assoc_L (++)), length_app, length_map_prefix. lia.
Qed.

Section Session.

Variable hitByBullet : Target → Bullet → bool.

(** A step changes neither the field's width nor the gun's [y], and never
    shortens the cached length of [targets]. *)
Lemma step_fields o s s1 :
  step hitByBullet o s = Some s1 →
  width s1 = width s ∧ gun_y (gun s1) = gun_y (gun s)
  ∧ (targetsLen s <= targetsLen s1)%nat.
Proof.
  destruct o; simpl; intros H.
  - by injection H as <-.
  - apply createTargets_fields in H as (? & -> & _ & _ & ?). done.
  - apply draw_frame in H. destruct H. split_and!; [done | congruence | lia].
  - by injection H as <-.
  - by injection H as <-.
Qed.

(** What a step does to the target at an index. *)
Lemma step_targets o s s1 i t :
  step hitByBullet o s = Some s1 → targets s !! i = Some t →
  ∃ t1, targets s1 !! i = Some t1
    ∧ match o with
      | CreateTargets =>
          t1 = if decide (i < targetsLen s)%nat
               then shifted (row_gap (width s)) t else t
      | Draw => t1 = t ∨ (target_hit t = false ∧ t1 = Target_set_hit t true)
      | _ => t1 = t
      end.
Proof.
  destruct o; simpl; intros H Ht.
  - injection H as <-. by exists t.
  - eexists. split; [by eapply createTargets_lookup | done].
  - apply draw_frame in H. destruct H as [_ _ _ _ _ _ _ _ _ _ [_ Hpt] _ _ _].
    apply (Hpt _ _ Ht).
  - injection H as <-. by exists t.
  - injection H as <-. by exists t.
Qed.

Lemma forward_refl b : forward hitByBullet b b.
Proof. unfold forward. destruct (bullet_status b); [done | done | by left]. Qed.

Lemma forward_trans b1 b2 b3 :
  forward hitByBullet b1 b2 → forward hitByBullet b2 b3 →
  forward hitByBullet b1 b3.
Proof.
  unfold forward. destruct (bullet_status b1); [done | |].
  - intros ->. done.
  - intros [->| [-> Hex]]; [done |]. intros ->. by right.
Qed.

(** What a step does to the bullet at an index. *)
Lemma step_bullets o s s1 i b :
  step hitByBullet o s = Some s1 → bullets s !! i = Some b →
  ∃ b1, bullets s1 !! i = Some b1 ∧ forward hitByBullet b b1.
Proof.
  destruct o; simpl; intros H Hb.
  - injection H as <-. exists b. split; [|apply forward_refl].
    cbn. by apply lookup_app_l_Some.
  - apply createTargets_fields in H as (_ & _ & Hbs & _).
    exists b. rewrite Hbs. split; [done | apply forward_refl].
  - apply draw_frame in H.
    destruct H as [_ _ _ _ _ _ _ Hn _ [_ Hpt] _ _ _ _].
    set (b0 := if decide (i < bulletsLen s)%nat then moved (bulletStep s) b else b).
    destruct (Hpt i b0) as (b1 & Hb1 & Hrel).
    { rewrite lookup_map_prefix by done. rewrite Hb. subst b0. by case_decide. }
    exists b1. split; [done |].
    assert (bullet_status b ≠ InFlight → b0 = b) as Hsame.
    { intros Hst. subst b0. case_decide; [|done]. unfold moved.
      by destruct (bullet_status b). }
    unfold forward. destruct (bullet_status b) eqn:Est; [done | |].
    + rewrite Hsame in Hrel by done.
      destruct Hrel as [->|[-> _]]; [done | done].
    + rewrite Hsame in Hrel by done.
      destruct Hrel as [->|[-> [t Ht]]]; [by left |].
      right. split; [done |]. by exists t, b.
  - injection H as <-. exists b. split; [done | apply forward_refl].
  - injection H as <-. exists b. split; [done | apply forward_refl].
Qed.

Lemma run_bullets ops s s' i b :
  run hitByBullet ops s = Some s' → bullets s !! i = Some b →
  ∃ b', bullets s' !! i = Some b' ∧ forward hitByBullet b b'.
Proof.
  revert s b. induction ops as [|o ops IH]; intros s b H Hb; simpl in H.
  - simplify_eq. exists b. split; [done | apply forward_refl].
  - destruct (step hitByBullet o s) as [s1|] eqn:H1; simpl in H; [|done].
    destruct (step_bullets _ _ _ _ _ H1 Hb) as (b1 & Hb1 & Hf1).
    destruct (IH _ _ H Hb1) as (b' & Hb' & Hf').
    exists b'. split; [done |]. by eapply forward_trans.
Qed.

(** C3, as the code has it.  Along any sequence of session calls a bullet
    keeps its place in [bullets]; once its status is [Hit] it stays [Hit]; once
    it is [Miss] it never returns to [InFlight].  The collision step writes
    [Hit] to whichever bullet the hit test accepts, without looking at its
    status: a [Miss] stays a [Miss] provided the hit test rejects every bullet
    whose status is [Miss]. *)
Theorem bullet_status_forward (ops : list Op) (s s' : Playground)
    (i : nat) (b : Bullet) :
  run hitByBullet ops s = Some s' →
  bullets s !! i = Some b →
  ∃ b', bullets s' !! i = Some b'
    ∧ (bullet_status b = Hit → bullet_status b' = Hit)
    ∧ (bullet_status b = Miss → bullet_status b' ≠ InFlight)
    ∧ ((∀ t b0, bullet_status b0 = Miss → hitByBullet t b0 = false) →
       bullet_status b = Miss → bullet_status b' = Miss).
Proof.
  intros Hrun Hb. destruct (run_bullets _ _ _ _ _ Hrun Hb) as (b' & Hb' & Hf).
  exists b'. split; [done |]. unfold forward in Hf.
  split_and!.
  - intros Hst. by rewrite Hst in Hf.
  - intros Hst. rewrite Hst in Hf. destruct Hf as [->|[-> _]]; done.
  - intros Hrej Hst. rewrite Hst in Hf.
    destruct Hf as [Hm|[_ (t & b0 & Hb0 & Hhit)]]; [done |].
    rewrite (Hrej t b0 Hb0) in Hhit. done.
Qed.

End Session.

(** The statement on [missed_bullet], with a hit test that accepts bullets in
    flight only: the bullet is still a [Miss] after two frames and a spawn. *)
Lemma bullet_status_forward_witness :
  ∃ s' b',
    run overlaps_in_flight [Draw; CreateTargets; Draw] missed_bullet = Some s'
    ∧ bullets missed_bullet !! 0%nat = Some (mkBullet 600 (-12) 12 Miss)
    ∧ bullets s' !! 0%nat = Some b'
    ∧ bullet_status b' = Miss.
Proof.
  assert (∃ s', run overlaps_in_flight [Draw; CreateTargets; Draw] missed_bullet
                 = Some s') as [s' Hs'] by (eexists; vm_compute; reflexivity).
  destruct (bullet_status_forward overlaps_in_flight
              [Draw; CreateTargets; Draw] missed_bullet s' 0
              (mkBullet 600 (-12) 12 Miss) Hs' eq_refl)
    as (b' & Hb' & _ & _ & Hmiss).
  exists s', b'. split; [exact Hs' |]. split; [reflexivity |].
  split; [exact Hb' |].
  apply Hmiss; [|reflexivity].
  intros t b0 Hb0. unfold overlaps_in_flight. rewrite Hb0. reflexivity.
Defined.

(** C3 as stated fails.  In one frame on [missed_bullet], with a hit test that
    accepts every bullet, the bullet whose status is [Miss] receives [Hit].
    In a session on the standard field, with a hit test that accepts every
    bullet for a target below the first row: a bullet is fired and flies out
    of the field, frame 86 marks it [Miss]; a new row is spawned; the next
    frame gives it the status [Hit]. *)
Lemma miss_can_become_hit :
  bullet_status <$> bullets missed_bullet = [Miss]
  ∧ (fmap bullet_status ∘ bullets) <$> draw every_bullet missed_bullet
    = Some [Hit]
  ∧ (fmap bullet_status ∘ bullets)
      <$> (newGame once_descended standard_field
           ≫= run once_descended (CreateBullet :: replicate 86 Draw))
    = Some [Miss]
  ∧ (fmap bullet_status ∘ bullets)
      <$> (newGame once_descended standard_field
           ≫= run once_descended
                 (CreateBullet :: replicate 86 Draw ++ [CreateTargets; Draw]))
    = Some [Hit].
Proof. split_and!; vm_compute; reflexivity. Qed.

(** ** Descent of the targets *)

Section Descent.

Variable hitByBullet : Target → Bullet → bool.



End Descent.


(** ** Game over *)

Section GameOver.

Variable hitByBullet : Target → Bullet → bool.

(** Along a session the bottom edge of a target that descends on a spawn
    ([height + gap >= 0]) never moves up. *)
Lemma run_bottom ops s s1 i t :
  run hitByBullet ops s = Some s1 →
  targets s !! i = Some t →
  0 <= target_height t + row_gap (width s) →
  gun_y (gun s1) = gun_y (gun s)
  ∧ (targetsLen s <= targetsLen s1)%nat
  ∧ ∃ t1, targets s1 !! i = Some t1 ∧ bottom t <= bottom t1.
Proof.
  revert s t. induction ops as [|o ops IH]; intros s t Hrun Ht Hge;
    simpl in Hrun.
  - injection Hrun as <-. split; [done |]. split; [done |].
    exists t. split; [done | apply Qle_refl].
  - destruct (step hitByBullet o s) as [s1'|] eqn:H1; simpl in Hrun; [|done].
    destruct (step_fields _ _ _ _ H1) as (Hw & Hg & Hl).
    destruct (step_targets _ _ _ _ _ _ H1 Ht) as (t1 & Ht1 & Hrel).
    assert (target_height t1 = target_height t ∧ bottom t <= bottom t1)
      as [Hh Hb].
    { destruct o.
      - subst t1. split; [done | apply Qle_refl].
      - subst t1. case_decide; [|split; [done | apply Qle_refl]].
        unfold shifted. destruct (negb _); [|split; [done | apply Qle_refl]].
        split; [done |]. unfold bottom. cbn. lra.
      - destruct Hrel as [->|[_ ->]]; split; try done; apply Qle_refl.
      - subst t1. split; [done | apply Qle_refl].
      - subst t1. split; [done | apply Qle_refl]. }
    destruct (IH s1' t1 Hrun Ht1) as (Hg' & Hl' & t2 & Ht2 & Hb2).
    { by rewrite Hh, Hw. }
    split; [congruence |]. split; [lia |].
    exists t2. split; [done |]. by eapply Qle_trans.
Qed.

(** A frame that finds the target of an earlier game-over frame not higher
    than it was, and still not hit unless it is the seed [targets[0]], ends
    the game again. *)
Lemma gameOver_again (s0 s s1 s' : Playground) (ops : list Op)
    (c : nat) (tc t' : Target) :
  draw hitByBullet s0 = Some s →
  gameOver s = JBool true →
  closestTarget s = RObj c →
  targets s !! c = Some tc →
  0 <= target_height tc + row_gap (width s) →
  run hitByBullet ops s = Some s1 →
  draw hitByBullet s1 = Some s' →
  targets s' !! c = Some t' →
  c = 0%nat ∨ target_hit t' = false →
  gameOver s' = JBool true.
Proof.
  intros Hd0 Hgo Hc Htc Hge Hrun Hd1 Ht' Hun.
  apply draw_frame in Hd0. apply draw_frame in Hd1.
  (* the earlier frame *)
  pose proof (frame_gameOver _ _ _ Hd0) as Hgo0. rewrite Hc in Hgo0.
  destruct Hgo0 as (tc0 & Htc0 & Hgo0). rewrite Htc in Htc0.
  injection Htc0 as <-. rewrite Hgo in Hgo0. injection Hgo0 as Hline.
  symmetry in Hline. apply num_ge_true in Hline.
  assert (c = 0%nat ∨ (c < targetsLen s)%nat) as Hidx.
  { pose proof (frame_closest _ _ _ Hd0) as Hcl.
    destruct (targets s0); [congruence |].
    destruct Hcl as (m & tm & _ & Hm & _ & _ & _ & Hm' & _).
    rewrite Hc in Hm. injection Hm as <-.
    rewrite (frame_targetsLen _ _ _ Hd0).
    destruct Hm' as [->|[? _]]; [by left | by right]. }
  (* the session in between *)
  destruct (run_bottom _ _ _ _ _ Hrun Htc Hge) as (Hg & Hl & t1 & Ht1 & Hb1).
  (* the later frame *)
  destruct (frame_targets _ _ _ Hd1) as [_ Hpt].
  destruct (Hpt _ _ Ht1) as (t2 & Ht2 & Hrel).
  rewrite Ht' in Ht2. injection Ht2 as <-.
  assert (bottom t' = bottom t1) as Hbt.
  { destruct Hrel as [->|[_ ->]]; done. }
  pose proof (frame_closest _ _ _ Hd1) as Hcl.
  destruct (targets s1) as [|u us] eqn:Hts1; [done |].
  destruct Hcl as (m & tm & t0 & Hm & Htm & Ht0 & Hle0 & _ & Hall).
  pose proof (frame_gameOver _ _ _ Hd1) as Hgo1. rewrite Hm in Hgo1.
  destruct Hgo1 as (tm' & Htm' & ->). rewrite Htm in Htm'. injection Htm' as <-.
  f_equal. apply num_ge_true.
  rewrite Hg, (frame_gun _ _ _ Hd0).
  eapply Qle_trans; [exact Hline |].
  eapply Qle_trans; [exact Hb1 |]. rewrite <- Hbt.
  assert (c = 0%nat ∨ ((c < targetsLen s)%nat ∧ target_hit t' = false))
    as [->|[Hlt Hlive]].
  { destruct Hun as [->|Hun]; [by left |].
    destruct Hidx as [->|Hlt]; [by left | by right]. }
  - rewrite Ht0 in Ht'. injection Ht' as <-. exact Hle0.
  - apply (Hall c t'); [lia | done | done].
Qed.

(** On a field of non-negative width every target of every session
    descends on a spawn: [height + gap] is [size], which is not negative. *)
Lemma Math_round_nonneg q : - (1 # 2) <= q → 0 <= Math_round q.
Proof.
  intros Hq. unfold Math_round.
  change 0 with (inject_Z 0). rewrite <- Zle_Qle.
  change 0%Z with (Qfloor 0). apply Qfloor_resp_le. lra.
Qed.

Lemma Math_round_le q : Math_round q <= q + (1 # 2).
Proof. unfold Math_round. apply Qfloor_le. Qed.

Lemma row_size_nonneg w : 0 <= w → 0 <= row_size w.
Proof.
  intros Hw. unfold row_size. apply Math_round_nonneg.
  change (inject_Z (Z.of_nat targetsInRow)) with 12.
  pose proof (Math_round_le ((18 # 10) * w / 100)) as Hgap.
  unfold row_gap, perOfNum.
  set (gap := Math_round ((18 # 10) * w / 100)) in *. clearbody gap.
  unfold Qdiv in *.
  change (/ 100) with (1 # 100) in Hgap. change (/ 12) with (1 # 12). lra.
Qed.

Lemma descending_pushed w i t :
  0 <= w →
  pushed targetsInRow (row_gap w) (row_gap w) (row_size w - row_gap w)
    (row_size w - row_gap w) (row_gap w) !! i = Some t →
  0 <= target_height t + row_gap w.
Proof.
  intros Hw Ht. apply pushed_lookup in Ht as (_ & _ & -> & _).
  pose proof (row_size_nonneg w Hw). lra.
Qed.

Lemma descending_step o s s1 :
  0 <= width s → step hitByBullet o s = Some s1 →
  descending s → descending s1.
Proof.
  intros Hw H1 Hd i t1 Ht1.
  destruct (step_fields _ _ _ _ H1) as (-> & _ & _).
  destruct o; simpl in H1.
  - injection H1 as <-. by apply (Hd i).
  - pose proof (createTargets_Some _ _ H1) as Hn.
    rewrite createTargets_closed in H1 by done. injection H1 as <-.
    cbn [targets set_targets set_targetsLen] in Ht1.
    rewrite (assoc_L (++)) in Ht1.
    apply lookup_app_Some in Ht1 as [Ht1|[_ Ht1]].
    + rewrite lookup_map_prefix in Ht1 by done.
      destruct (targets s !! i) as [t|] eqn:Ht;
        [|by case_decide].
      assert (target_height t1 = target_height t) as ->.
      { case_decide; simpl in Ht1; injection Ht1 as <-; [|done].
        unfold shifted. by destruct (negb _). }
      by apply (Hd i).
    + by eapply descending_pushed.
  - apply draw_frame in H1. destruct (frame_targets _ _ _ H1) as [Hlen Hpt].
    destruct (lookup_lt_is_Some_2 (targets s) i) as [t Ht].
    { rewrite <- Hlen. by eapply lookup_lt_Some. }
    destruct (Hpt _ _ Ht) as (t1' & Ht1' & Hrel).
    rewrite Ht1 in Ht1'. injection Ht1' as <-.
    assert (target_height t1 = target_height t) as ->.
    { by destruct Hrel as [->|[_ ->]]. }
    by apply (Hd i).
  - injection H1 as <-. by apply (Hd i).
  - injection H1 as <-. by apply (Hd i).
Qed.

Lemma descending_run ops s s1 :
  0 <= width s → run hitByBullet ops s = Some s1 →
  descending s → descending s1 ∧ width s1 = width s.
Proof.
  revert s. induction ops as [|o ops IH]; intros s Hw Hrun Hd; simpl in Hrun.
  - by injection Hrun as <-.
  - destruct (step hitByBullet o s) as [s'|] eqn:H1; simpl in Hrun; [|done].
    destruct (step_fields _ _ _ _ H1) as (Hw' & _ & _).
    destruct (IH s') as [Hd' Hw1]; [by rewrite Hw' | done | |].
    + by eapply descending_step.
    + split; [done | congruence].
Qed.

Lemma descending_newGame c s :
  0 <= c_width c → newGame hitByBullet c = Some s →
  descending s ∧ width s = c_width c.
Proof.
  intros Hw Hs. unfold newGame in Hs.
  rewrite createTargets_closed in Hs by (cbn; lia).
  cbn [mbind option_bind] in Hs.
  match type of Hs with draw _ ?s1 = _ => set (st := s1) in Hs end.
  assert (descending st) as Hd.
  { intros i t Ht. by eapply descending_pushed. }
  apply draw_frame in Hs.
  split; [|by rewrite (frame_width _ _ _ Hs)].
  intros i t1 Ht1. rewrite (frame_width _ _ _ Hs).
  destruct (frame_targets _ _ _ Hs) as [Hlen Hpt].
  destruct (lookup_lt_is_Some_2 (targets st) i) as [t Ht].
  { rewrite <- Hlen. by eapply lookup_lt_Some. }
  destruct (Hpt _ _ Ht) as (t1' & Ht1' & Hrel).
  rewrite Ht1 in Ht1'. injection Ht1' as <-.
  assert (target_height t1 = target_height t) as ->.
  { by destruct Hrel as [->|[_ ->]]. }
  by apply (Hd i).
Qed.

(** C1, as the code has it.  In a session on a field of non-negative width,
    when a frame has set [gameOver] to [true], every later frame of the
    session sets it to [true] again provided the target that [closestTarget]
    referred to at the earlier frame is [targets[0]] or is still not hit after
    the later frame. *)
Theorem gameOver_persists (c : Constructed) (pre ops : list Op)
    (s0 s s1 s' : Playground) (k : nat) (t' : Target) :
  0 <= c_width c →
  newGame hitByBullet c ≫= run hitByBullet pre = Some s0 →
  draw hitByBullet s0 = Some s →
  gameOver s = JBool true →
  closestTarget s = RObj k →
  run hitByBullet ops s = Some s1 →
  draw hitByBullet s1 = Some s' →
  targets s' !! k = Some t' →
  k = 0%nat ∨ target_hit t' = false →
  gameOver s' = JBool true.
Proof.
  intros Hw Hpre Hd0 Hgo Hk Hrun Hd1 Ht' Hun.
  destruct (newGame hitByBullet c) as [sn|] eqn:Hn; simpl in Hpre; [|done].
  destruct (descending_newGame _ _ Hw Hn) as [Hdn Hwn].
  destruct (descending_run _ _ _ ltac:(by rewrite Hwn) Hpre Hdn) as [Hd0' Hw0].
  assert (descending s) as Hds.
  { apply (descending_step Draw s0); [congruence | done | done]. }
  pose proof (frame_gameOver _ _ _ (draw_frame _ _ _ Hd0)) as Hgo0.
  rewrite Hk in Hgo0. destruct Hgo0 as (tc & Htc & _).
  apply (gameOver_again s0 s s1 s' ops k tc t'); try done.
  by apply (Hds k).
Qed.

End GameOver.

(** The statement on the standard field: after six spawns the first row
    has reached the gun line and a frame ends the game; after one more spawn
    the next frame ends it again. *)
Lemma gameOver_persists_witness :
  0 <= c_width standard_field
  ∧ newGame overlaps standard_field ≫= run overlaps (replicate 6 CreateTargets)
    = Some late_game
  ∧ draw overlaps late_game = Some late_frame
  ∧ gameOver late_frame = JBool true
  ∧ closestTarget late_frame = RObj 0
  ∧ run overlaps [CreateTargets] late_frame = Some late_spawn
  ∧ draw overlaps late_spawn = Some late_next
  ∧ targets late_next !! 0%nat = Some (mkTarget 22 708 76 76 false)
  ∧ (0%nat = 0%nat ∨ target_hit (mkTarget 22 708 76 76 false) = false)
  ∧ gameOver late_next = JBool true.
Proof.
  assert (0 <= c_width standard_field) as H0
    by (apply Qle_bool_iff; vm_compute; reflexivity).
  assert (newGame overlaps standard_field
          ≫= run overlaps (replicate 6 CreateTargets) = Some late_game) as H1
    by (vm_compute; reflexivity).
  assert (draw overlaps late_game = Some late_frame) as H2
    by (vm_compute; reflexivity).
  assert (run overlaps [CreateTargets] late_frame = Some late_spawn) as H3
    by (vm_compute; reflexivity).
  assert (draw overlaps late_spawn = Some late_next) as H4
    by (vm_compute; reflexivity).
  split; [exact H0 |]. split; [exact H1 |]. split; [exact H2 |].
  split; [reflexivity |]. split; [reflexivity |].
  split; [exact H3 |]. split; [exact H4 |]. split; [reflexivity |].
  split; [right; reflexivity |].
  apply (gameOver_persists overlaps standard_field (replicate 6 CreateTargets)
           [CreateTargets] late_game late_frame late_spawn late_next 0
           (mkTarget 22 708 76 76 false) H0 H1 H2 eq_refl eq_refl H3 H4
           eq_refl (or_intror eq_refl)).
Defined.

(** C1 as stated fails.  On [gun_line] a frame sets [gameOver] to [true];
    the bullet fired next hits the target on the gun line in the following
    frame, which sets [gameOver] to [false].  The same happens in a whole
    session on the standard field with the hit test [column_or_deep]: the
    first bullet retires the leftmost column, six spawns bring the first row
    to the gun line and a frame sets [gameOver] to [true]; a second bullet,
    fired after a move to the left, retires the rest of that row and the frame
    sets [gameOver] to [false]. *)
Lemma gameOver_can_be_unset :
  gameOver <$> draw overlaps gun_line = Some (JBool true)
  ∧ gameOver <$> (draw overlaps gun_line ≫= run overlaps [CreateBullet; Draw])
    = Some (JBool false)
  ∧ gameOver
      <$> (newGame column_or_deep standard_field
           ≫= run column_or_deep
                 ([CreateBullet; Draw] ++ replicate 6 CreateTargets ++ [Draw]))
    = Some (JBool true)
  ∧ gameOver
      <$> (newGame column_or_deep standard_field
           ≫= run column_or_deep
                 ([CreateBullet; Draw] ++ replicate 6 CreateTargets ++ [Draw]
                  ++ [MoveGunLeft; CreateBullet; Draw]))
    = Some (JBool false).
Proof. split_and!; vm_compute; reflexivity. Qed.

(** ** The closest target *)

(** After a frame on a field with targets, [closestTarget] refers to a target
    that is not hit, or to the seed [targets[0]] whatever its hit flag. *)
Lemma closest_is_seed_or_live (hitByBullet : Target → Bullet → bool)
    (s s' : Playground) :
  draw hitByBullet s = Some s' →
  targets s ≠ [] →
  ∃ m tm, closestTarget s' = RObj m ∧ targets s' !! m = Some tm
          ∧ (m = 0%nat ∨ target_hit tm = false).
Proof.
  intros Hd Hne. apply draw_frame in Hd.
  pose proof (frame_closest _ _ _ Hd) as Hcl.
  destruct (targets s); [done |].
  destruct Hcl as (m & tm & _ & Hm & Htm & _ & _ & [->|[_ Hun]] & _).
  - exists 0%nat, tm. split_and!; [done | done | by left].
  - exists m, tm. split_and!; [done | done | by right].
Qed.

(** C2 fails on the code.  On the standard field with the hit test
    [overlaps]: the gun moves 26 steps to the left, under the target at index
    0, and fires; frame 70 brings the bullet to that target.  The target is
    marked as hit, and the frame leaves [closestTarget] on it, because the
    scan is seeded with [targets[0]] and no other target of the row lies
    strictly lower.  One frame earlier the target was not hit.  The same on
    [missed_bullet] in one frame with a hit test that accepts every bullet. *)
Lemma closest_can_be_hit :
  (λ s, (closestTarget s, target_hit <$> targets s !! 0%nat))
    <$> (newGame overlaps standard_field
         ≫= run overlaps
               (replicate 26 MoveGunLeft ++ CreateBullet :: replicate 69 Draw))
  = Some (RObj 0, Some false)
  ∧ (λ s, (closestTarget s, target_hit <$> targets s !! 0%nat))
      <$> (newGame overlaps standard_field
           ≫= run overlaps
                 (replicate 26 MoveGunLeft ++ CreateBullet :: replicate 70 Draw))
    = Some (RObj 0, Some true)
  ∧ (λ s, (closestTarget s, target_hit <$> targets s))
      <$> draw every_bullet missed_bullet
    = Some (RObj 0, [true]).
Proof. split_and!; vm_compute; reflexivity. Qed.

(** * Further properties of the code *)

(** ** Layout arithmetic *)

Lemma Math_round_gt q : q - (1 # 2) < Math_round q.
Proof.
  unfold Math_round. pose proof (Qlt_floor (q + (1 # 2))) as H.
  rewrite inject_Z_plus in H. change (inject_Z 1) with 1 in H. lra.
Qed.

(** [newGame] in closed form. *)
Lemma newGame_closed (hitByBullet : Target → Bullet → bool) (c : Constructed) :
  let gap := row_gap (c_width c) in
  let size := row_size (c_width c) in
  newGame hitByBullet c
  = Some (mkPlayground (c_width c) (c_height c)
            (JBool (num_ge (gap + (size - gap)) (gun_y (c_gun c))))
            (c_gun c) (c_gunStep c) [] 0 (c_bulletStep c)
            (pushed targetsInRow gap gap (size - gap) (size - gap) gap)
            targetsInRow (RObj 0) (Stats_update (c_stats c) 0 0 0)).
Proof.
  intros gap size. unfold newGame.
  rewrite createTargets_closed by (cbn; lia).
  cbn [mbind option_bind].
  set (row := pushed targetsInRow gap gap (size - gap) (size - gap) gap).
  match goal with |- draw _ ?s1 = _ => set (st := s1) end.
  assert (targets st = row) as Hrow by reflexivity.
  assert (length row = targetsInRow) as Hlen by apply pushed_length.
  rewrite (draw_no_bullets hitByBullet st
             (new_Target gap gap (size - gap) (size - gap)));
    [| done | done | by rewrite Hrow | by rewrite Hrow |].
  2: { intros i t Ht. rewrite Hrow in Ht.
       destruct (pushed_bottom _ _ _ _ _ _ _ _ Ht) as [Hhit ->].
       split; [done |]. apply Qle_refl. }
  reflexivity.
Qed.

(** The gun is square and horizontally centred, and the first shot starts on
    the centre line: for every field, the bullet fired right after [newGame]
    is in flight, at the gun's top edge, within half a unit of [width / 2],
    with radius [round(width / 100)]; the gun's width and height are equal
    (constructor and [createGun], lines 40-51 and 93-104; [createBullet],
    lines 106-120). *)
Theorem first_bullet_centred (hitByBullet : Target → Bullet → bool) (w h : Q) :
  ∃ s b,
    newGame hitByBullet (constructor w h) = Some s
    ∧ gun_width (gun s) = gun_height (gun s)
    ∧ bullets (createBullet s) = [b]
    ∧ bulletsLen (createBullet s) = 1%nat
    ∧ bullet_status b = InFlight
    ∧ bullet_y b = gun_y (gun s)
    ∧ bullet_radius b = Math_round (1 * w / 100)
    ∧ w / 2 - (1 # 2) < bullet_x b
    ∧ bullet_x b <= w / 2 + (1 # 2).
Proof.
  rewrite newGame_closed. eexists _, _. split; [reflexivity |].
  cbn [gun bullets bulletsLen createBullet set_bullets set_bulletsLen app length
       width c_gun c_width constructor new_Gun gun_width gun_height gun_x gun_y
       new_Bullet bullet_status bullet_y bullet_x bullet_radius].
  split_and!; try reflexivity.
  - set (gw := perOfNum 6 w). unfold new_Bullet. cbn [bullet_x].
    pose proof (Math_round_gt (w / 2 - gw / 2)). unfold Qdiv in *.
    change (/ 2) with (1 # 2) in *. lra.
  - set (gw := perOfNum 6 w). unfold new_Bullet. cbn [bullet_x].
    pose proof (Math_round_le (w / 2 - gw / 2)). unfold Qdiv in *.
    change (/ 2) with (1 # 2) in *. lra.
Qed.

(** ** The layout of a row *)




(** ** What a session never does to its arrays *)

Lemma count_hit_mono (l l' : list Bullet) :
  (∀ i b, l !! i = Some b →
     ∃ b', l' !! i = Some b' ∧ (bullet_status b = Hit → bullet_status b' = Hit)) →
  (count_status Hit l <= count_status Hit l')%nat.
Proof.
  revert l'. induction l as [|b l IH]; intros l' H.
  - unfold count_status at 1. simpl. lia.
  - destruct (H 0%nat b eq_refl) as (b' & Hb' & Hst).
    destruct l' as [|b0 l']; [done |]. simpl in Hb'. injection Hb' as ->.
    rewrite !count_status_cons.
    assert (count_status Hit l <= count_status Hit l')%nat as Hle.
    { apply IH. intros i x Hx. apply (H (S i) x Hx). }
    repeat case_decide; try lia. exfalso. auto.
Qed.

Section Arrays.

Variable hitByBullet : Target → Bullet → bool.

Lemma step_lengths o s s1 :
  step hitByBullet o s = Some s1 →
  length (bullets s1)
  = (length (bullets s) + match o with CreateBullet => 1 | _ => 0 end)%nat
  ∧ length (targets s1)
    = (length (targets s) + match o with CreateTargets => 12 | _ => 0 end)%nat
  ∧ bulletStep s1 = bulletStep s.
Proof.
  destruct o; simpl; intros H.
  - injection H as <-. cbn. rewrite length_app. simpl.
    split_and!; [lia | lia | done].
  - pose proof (createTargets_Some _ _ H) as Hn.
    rewrite createTargets_closed in H by done. injection H as <-.
    cbn [bullets targets bulletStep set_targets set_targetsLen].
    rewrite (assoc_L (++)), length_app, length_map_prefix.
    split_and!; [lia | cbn [length]; lia | done].
  - apply draw_frame in H.
    destruct (frame_bullets _ _ _ H) as [Hb _].
    destruct (frame_targets _ _ _ H) as [Ht _].
    rewrite length_map_prefix in Hb.
    pose proof (frame_bulletStep _ _ _ H). split_and!; [lia | lia | done].
  - injection H as <-. cbn. split_and!; [lia | lia | done].
  - injection H as <-. cbn. split_and!; [lia | lia | done].
Qed.

Lemma run_lengths ops s s' :
  run hitByBullet ops s = Some s' →
  length (bullets s') = (length (bullets s) + fire_calls ops)%nat
  ∧ length (targets s') = (length (targets s) + 12 * spawn_calls ops)%nat
  ∧ bulletStep s' = bulletStep s.
Proof.
  revert s. induction ops as [|o ops IH]; intros s H; simpl in H.
  - injection H as <-. simpl. split_and!; [lia | lia | done].
  - destruct (step hitByBullet o s) as [s1|] eqn:H1; simpl in H; [|done].
    destruct (step_lengths _ _ _ H1) as (Hb & Ht & Hs).
    destruct (IH _ H) as (Hb' & Ht' & Hs').
    rewrite Hb', Ht', Hb, Ht, Hs', Hs. destruct o; simpl; split_and!; lia || done.
Qed.

(** Both arrays are append-only (lines 115, 146, and no removal anywhere):
    along any session trace [bullets] grows by exactly one element per
    [createBullet] and [targets] by exactly twelve per [createTargets];
    frames and gun moves keep both lengths. *)
Theorem arrays_append_only (ops : list Op) (s s' : Playground) :
  run hitByBullet ops s = Some s' →
  length (bullets s') = (length (bullets s) + fire_calls ops)%nat
  ∧ length (targets s') = (length (targets s) + 12 * spawn_calls ops)%nat.
Proof. intros H. destruct (run_lengths _ _ _ H) as (? & ? & _). done. Qed.

(** No call of a session changes the [x], the width or the height of a
    target, and none clears a hit flag: a target that is hit is never written
    to again (lines 136-142 and 228-230 skip it). *)
Theorem targets_keep_shape (ops : list Op) (s s' : Playground)
    (i : nat) (t : Target) :
  run hitByBullet ops s = Some s' →
  targets s !! i = Some t →
  ∃ t', targets s' !! i = Some t'
    ∧ target_x t' = target_x t
    ∧ target_width t' = target_width t
    ∧ target_height t' = target_height t
    ∧ (target_hit t = true → t' = t).
Proof.
  revert s t. induction ops as [|o ops IH]; intros s t H Ht; simpl in H.
  - injection H as <-. by exists t.
  - destruct (step hitByBullet o s) as [s1|] eqn:H1; simpl in H; [|done].
    destruct (step_targets _ _ _ _ _ _ H1 Ht) as (t1 & Ht1 & Hrel).
    destruct (IH _ _ H Ht1) as (t' & Ht' & Hx & Hw & Hh & Hhit).
    assert (target_x t1 = target_x t ∧ target_width t1 = target_width t
            ∧ target_height t1 = target_height t
            ∧ (target_hit t = true → t1 = t)) as (Hx1 & Hw1 & Hh1 & Hhit1).
    { destruct o; try (subst t1; done).
      - subst t1. case_decide; [|done]. unfold shifted.
        destruct (target_hit t); done.
      - destruct Hrel as [->|[Hf ->]]; [done |]. split_and!; try done.
        congruence. }
    exists t'. split; [done |]. split_and!; try congruence.
    intros Hh'. rewrite <- (Hhit1 Hh'). apply Hhit. by rewrite (Hhit1 Hh').
Qed.

End Arrays.

(** The two statements on [missed_bullet]. *)
Lemma arrays_append_only_witness :
  ∃ s',
    run overlaps [CreateBullet; CreateTargets; Draw; CreateBullet] missed_bullet
    = Some s'
    ∧ length (bullets s') = (1 + 2)%nat
    ∧ length (targets s') = (1 + 12 * 1)%nat.
Proof.
  assert (∃ s', run overlaps [CreateBullet; CreateTargets; Draw; CreateBullet]
                  missed_bullet = Some s') as [s' Hs']
    by (eexists; vm_compute; reflexivity).
  exists s'. split; [exact Hs' |].
  apply (arrays_append_only overlaps
           [CreateBullet; CreateTargets; Draw; CreateBullet] missed_bullet s' Hs').
Defined.

Lemma targets_keep_shape_witness :
  ∃ s' t',
    run every_bullet [CreateTargets; Draw; CreateTargets] missed_bullet = Some s'
    ∧ targets missed_bullet !! 0%nat = Some (mkTarget 22 22 76 76 false)
    ∧ targets s' !! 0%nat = Some t'
    ∧ target_x t' = 22 ∧ target_width t' = 76 ∧ target_height t' = 76.
Proof.
  assert (∃ s', run every_bullet [CreateTargets; Draw; CreateTargets]
                  missed_bullet = Some s') as [s' Hs']
    by (eexists; vm_compute; reflexivity).
  destruct (targets_keep_shape every_bullet [CreateTargets; Draw; CreateTargets]
              missed_bullet s' 0 (mkTarget 22 22 76 76 false) Hs' eq_refl)
    as (t' & Ht' & Hx & Hw & Hh & _).
  exists s', t'. split_and!; [exact Hs' | reflexivity | exact Ht' | exact Hx
    | exact Hw | exact Hh].
Defined.

(** ** The flight of a bullet *)

Section Flight.

Variable hitByBullet : Target → Bullet → bool.

(** What a step does to a bullet inside the cached length. *)
Lemma step_flight o s s1 i b :
  counters_ok s →
  step hitByBullet o s = Some s1 →
  bullets s !! i = Some b →
  ∃ b1, bullets s1 !! i = Some b1
    ∧ bullet_x b1 = bullet_x b ∧ bullet_radius b1 = bullet_radius b
    ∧ (bullet_status b ≠ InFlight →
       bullet_status b1 ≠ InFlight ∧ bullet_y b1 = bullet_y b)
    ∧ (bullet_status b1 = InFlight →
       bullet_status b = InFlight
       ∧ match o with
         | Draw => ¬ bullet_y b + bullet_radius b <= 0
                   ∧ bullet_y b1 = bullet_y b - bulletStep s
         | _ => bullet_y b1 = bullet_y b
         end).
Proof.
  intros [Hbl _] H Hb.
  assert (∀ b1, b1 = b →
            bullet_x b1 = bullet_x b ∧ bullet_radius b1 = bullet_radius b
            ∧ (bullet_status b ≠ InFlight →
               bullet_status b1 ≠ InFlight ∧ bullet_y b1 = bullet_y b)
            ∧ (bullet_status b1 = InFlight →
               bullet_status b = InFlight ∧ bullet_y b1 = bullet_y b)) as Hsame.
  { by intros b1 ->. }
  destruct o; simpl in H.
  - injection H as <-. exists b. split; [by apply lookup_app_l_Some |].
    by apply Hsame.
  - apply createTargets_fields in H as (_ & _ & Hbs & _).
    exists b. rewrite Hbs. split; [done |]. by apply Hsame.
  - apply draw_frame in H. destruct (frame_bullets _ _ _ H) as [_ Hpt].
    pose proof (frame_bullets_bound _ _ _ H) as Hn.
    destruct (Hpt i (moved (bulletStep s) b)) as (b1 & Hb1 & Hrel).
    { rewrite lookup_map_prefix by done. rewrite Hb. simpl.
      rewrite decide_True; [done |]. rewrite Hbl. by eapply lookup_lt_Some. }
    exists b1. split; [done |].
    assert (bullet_x b1 = bullet_x (moved (bulletStep s) b)
            ∧ bullet_radius b1 = bullet_radius (moved (bulletStep s) b)
            ∧ bullet_y b1 = bullet_y (moved (bulletStep s) b)
            ∧ (bullet_status b1 = bullet_status (moved (bulletStep s) b)
               ∨ bullet_status b1 = Hit)) as (Hx & Hr & Hy & Hst).
    { destruct Hrel as [->|[-> _]]; split_and!; try done;
        first [by left | by right]. }
    rewrite Hx, Hr, Hy. clear Hx Hr Hy Hrel Hb1 Hpt.
    unfold moved in *. destruct (bullet_status b) eqn:Est.
    + destruct (num_le _ _) eqn:Hle; cbn in *.
      * split_and!; try done. intros Hfl. destruct Hst; congruence.
      * apply num_le_false in Hle. split_and!; try done.
    + rewrite Est in Hst. split_and!; try done.
      * intros _. split; [|done]. destruct Hst; congruence.
      * intros Hfl. destruct Hst; congruence.
    + rewrite Est in Hst. split_and!; try done.
      * intros _. split; [|done]. destruct Hst; congruence.
      * intros Hfl. destruct Hst; congruence.
  - injection H as <-. exists b. split; [done |]. by apply Hsame.
  - injection H as <-. exists b. split; [done |]. by apply Hsame.
Qed.

Lemma run_flight ops s s' i b :
  counters_ok s →
  run hitByBullet ops s = Some s' →
  bullets s !! i = Some b →
  ∃ b', bullets s' !! i = Some b'
    ∧ bullet_x b' = bullet_x b ∧ bullet_radius b' = bullet_radius b
    ∧ (bullet_status b ≠ InFlight →
       bullet_status b' ≠ InFlight ∧ bullet_y b' = bullet_y b)
    ∧ (bullet_status b' = InFlight →
       bullet_status b = InFlight
       ∧ bullet_y b'
         == bullet_y b - inject_Z (Z.of_nat (draw_calls ops)) * bulletStep s
       ∧ ∀ n, draw_calls ops = S n →
           ¬ bullet_y b + bullet_radius b
             <= inject_Z (Z.of_nat n) * bulletStep s).
Proof.
  revert s b. induction ops as [|o ops IH]; intros s b Hok H Hb; simpl in H.
  - injection H as <-. exists b. split_and!; try done.
    intros Hfl. split_and!; [done | simpl; ring | done].
  - destruct (step hitByBullet o s) as [s1|] eqn:H1; simpl in H; [|done].
    pose proof (counters_step _ _ _ _ H1 Hok) as Hok1.
    destruct (step_lengths _ _ _ _ H1) as (_ & _ & Hstep).
    destruct (step_flight _ _ _ _ _ Hok H1 Hb)
      as (b1 & Hb1 & Hx1 & Hr1 & Hret1 & Hfl1).
    destruct (IH _ _ Hok1 H Hb1) as (b' & Hb' & Hx & Hr & Hret & Hfl).
    exists b'. split; [done |]. split_and!; try congruence.
    + intros Hst. destruct (Hret1 Hst) as [Hst1 Hy1].
      destruct (Hret Hst1) as [Hst' Hy']. split; [done | congruence].
    + intros Hst'. destruct (Hfl Hst') as (Hst1 & Hy' & Hlast).
      destruct (Hfl1 Hst1) as (Hst & Hmove). split; [done |].
      rewrite Hstep in Hy', Hlast.
      destruct o; cbn [draw_calls];
        try (rewrite Hmove in Hy', Hlast; rewrite <- Hr1; done).
      destruct Hmove as [Hin Hmove]. rewrite Hmove in Hy', Hlast.
      rewrite Hr1 in Hlast. split.
      * rewrite Hy'. rewrite Nat2Z.inj_succ, <- Z.add_1_r, inject_Z_plus. ring.
      * intros n Hn. injection Hn as <-.
        destruct (draw_calls ops) as [|m] eqn:Hd.
        { intros Hle. apply Hin.
          change (inject_Z (Z.of_nat 0)) with 0 in Hle. lra. }
        intros Hle. apply (Hlast m eq_refl).
        rewrite Nat2Z.inj_succ, <- Z.add_1_r, inject_Z_plus in Hle.
        change (inject_Z 1) with 1 in Hle. lra.
Qed.

(** Bullets fly straight up and leave (lines 188-207, 245).  Along any
    session trace a bullet keeps its [x] and radius; once it is not in flight
    it is never moved again; while it is in flight it has moved by exactly
    [bulletStep] per frame; and it is no longer in flight after [n + 1] frames
    if [y + radius <= n * bulletStep] held at the start. *)
Theorem bullets_fly_up_and_leave (ops : list Op) (s s' : Playground)
    (i : nat) (b : Bullet) :
  counters_ok s →
  run hitByBullet ops s = Some s' →
  bullets s !! i = Some b →
  ∃ b', bullets s' !! i = Some b'
    ∧ bullet_x b' = bullet_x b ∧ bullet_radius b' = bullet_radius b
    ∧ (bullet_status b ≠ InFlight → bullet_y b' = bullet_y b)
    ∧ (bullet_status b' = InFlight →
       bullet_y b'
       == bullet_y b - inject_Z (Z.of_nat (draw_calls ops)) * bulletStep s)
    ∧ (∀ n, draw_calls ops = S n →
         bullet_y b + bullet_radius b <= inject_Z (Z.of_nat n) * bulletStep s →
         bullet_status b' ≠ InFlight).
Proof.
  intros Hok H Hb.
  destruct (run_flight _ _ _ _ _ Hok H Hb) as (b' & Hb' & Hx & Hr & Hret & Hfl).
  exists b'. split; [done |]. split_and!; try done.
  - intros Hst. by destruct (Hret Hst).
  - intros Hst. by destruct (Hfl Hst) as (_ & ? & _).
  - intros n Hn Hle Hst. destruct (Hfl Hst) as (_ & _ & Hlast).
    by apply (Hlast n Hn).
Qed.

(** The score never goes down: between two frames of a session the counts
    of fired and of hit bullets pushed to [Stats] do not decrease (lines
    261-284 with 193-196 and 245). *)
Theorem score_never_decreases (s0 s s1 s' : Playground) (ops : list Op) :
  counters_ok s0 →
  draw hitByBullet s0 = Some s →
  run hitByBullet ops s = Some s1 →
  draw hitByBullet s1 = Some s' →
  (stats_fired (stats s) <= stats_fired (stats s'))%nat
  ∧ (stats_hit (stats s) <= stats_hit (stats s'))%nat.
Proof.
  intros Hok0 Hd0 Hrun Hd1.
  pose proof (counters_draw _ _ _ Hd0 Hok0) as Hok.
  pose proof (run_counters _ _ _ _ Hrun Hok) as Hok1.
  pose proof (counters_draw _ _ _ Hd1 Hok1) as Hok'.
  destruct (run_lengths _ _ _ _ Hrun) as (Hlen & _).
  pose proof (step_lengths hitByBullet Draw _ _ Hd1) as (Hlen1 & _).
  apply draw_frame in Hd0 as F0. apply draw_frame in Hd1 as F1.
  rewrite (frame_stats _ _ _ F0), (frame_stats _ _ _ F1). cbn.
  rewrite <- (frame_bulletsLen _ _ _ F0), <- (frame_bulletsLen _ _ _ F1).
  destruct Hok as [Hb _]. destruct Hok' as [Hb' _].
  rewrite Hb, Hb', !firstn_all. split; [lia |].
  apply count_hit_mono. intros i b Hbi.
  destruct (run_bullets _ _ _ _ _ _ Hrun Hbi) as (b1 & Hb1 & Hf1).
  destruct (step_bullets hitByBullet Draw _ _ _ _ Hd1 Hb1) as (b' & Hbi' & Hf').
  exists b'. split; [done |]. intros Hst.
  pose proof (forward_trans _ _ _ _ Hf1 Hf') as Hf.
  unfold forward in Hf. by rewrite Hst in Hf.
Qed.

End Flight.

(** The statement on [three_bullets]: the first bullet, in flight with
    [y + radius = 4], is out of flight after two frames. *)
Lemma bullets_fly_up_and_leave_witness :
  ∃ s' b',
    counters_ok three_bullets
    ∧ run overlaps [Draw; CreateBullet; Draw] three_bullets = Some s'
    ∧ bullets three_bullets !! 0%nat = Some (mkBullet 600 (-8) 12 InFlight)
    ∧ bullets s' !! 0%nat = Some b'
    ∧ bullet_x b' = 600 ∧ bullet_radius b' = 12
    ∧ bullet_status b' ≠ InFlight.
Proof.
  assert (counters_ok three_bullets) as Hok by (split; reflexivity).
  assert (∃ s', run overlaps [Draw; CreateBullet; Draw] three_bullets = Some s')
    as [s' Hs'] by (eexists; vm_compute; reflexivity).
  destruct (bullets_fly_up_and_leave overlaps [Draw; CreateBullet; Draw]
              three_bullets s' 0 (mkBullet 600 (-8) 12 InFlight) Hok Hs' eq_refl)
    as (b' & Hb' & Hx & Hr & _ & _ & Hout).
  exists s', b'.
  split_and!; [exact Hok | exact Hs' | reflexivity | exact Hb' | exact Hx
    | exact Hr |].
  apply (Hout 1%nat eq_refl). apply Qle_bool_iff. vm_compute. reflexivity.
Defined.

(** The statement on [missed_bullet]: a frame, a shot and a spawn, a frame. *)
Lemma score_never_decreases_witness :
  ∃ s s1 s',
    counters_ok missed_bullet
    ∧ draw overlaps_in_flight missed_bullet = Some s
    ∧ run overlaps_in_flight [CreateBullet; CreateTargets] s = Some s1
    ∧ draw overlaps_in_flight s1 = Some s'
    ∧ (stats_fired (stats s) <= stats_fired (stats s'))%nat
    ∧ (stats_hit (stats s) <= stats_hit (stats s'))%nat.
Proof.
  assert (counters_ok missed_bullet) as Hok by (split; reflexivity).
  assert (∃ s, draw overlaps_in_flight missed_bullet = Some s) as [s Hs]
    by (eexists; vm_compute; reflexivity).
  destruct (run_total overlaps_in_flight [CreateBullet; CreateTargets] s
              (counters_draw _ _ _ Hs Hok)) as [s1 Hs1].
  destruct (draw_total overlaps_in_flight s1) as [s' Hs'].
  { destruct (run_counters _ _ _ _ Hs1 (counters_draw _ _ _ Hs Hok)). lia. }
  { destruct (run_counters _ _ _ _ Hs1 (counters_draw _ _ _ Hs Hok)). lia. }
  exists s, s1, s'. split_and!; [exact Hok | exact Hs | exact Hs1 | exact Hs' | |];
    apply (score_never_decreases overlaps_in_flight missed_bullet s s1 s'
             [CreateBullet; CreateTargets] Hok Hs Hs1 Hs').
Defined.

(** ** Which bullet, which target *)

Section Matching.

Variable hitByBullet : Target → Bullet → bool.

Lemma find_hitBullet_first n j target bs k :
  find_hitBullet hitByBullet n j target bs = Some (Some k) →
  ∀ i b, (j <= i < k)%nat → bs !! i = Some b → hitByBullet target b = false.
Proof.
  revert j. induction n as [|n IH]; intros j H i b Hi Hb; simpl in H; [done |].
  destruct (bs !! j) as [b0|] eqn:Hb0; [|done].
  destruct (hitByBullet target b0) eqn:Hhit.
  - injection H as <-. lia.
  - destruct (decide (i = j)) as [->|Hne]; [congruence |].
    apply (IH (S j) H i b); [lia | done].
Qed.

Lemma find_hitBullet_None n j target bs :
  find_hitBullet hitByBullet n j target bs = Some None →
  ∀ i b, (j <= i < j + n)%nat → bs !! i = Some b → hitByBullet target b = false.
Proof.
  revert j. induction n as [|n IH]; intros j H i b Hi Hb; simpl in H; [lia |].
  destruct (bs !! j) as [b0|] eqn:Hb0; [|done].
  destruct (hitByBullet target b0) eqn:Hhit; [done |].
  destruct (decide (i = j)) as [->|Hne]; [congruence |].
  apply (IH (S j) H i b); [lia | done].
Qed.

(** The inner scan of [drawTargets] (lines 233-240) stops at the first
    bullet, in firing order, that the target reports as a hit: every bullet
    before it was rejected; and it finds none only when every bullet inside
    the cached length was rejected.  It returns normally whenever the cached
    length does not exceed the array. *)
Theorem first_bullet_wins (n : nat) (target : Target) (bs : list Bullet) :
  (n <= length bs)%nat →
  match find_hitBullet hitByBullet n 0 target bs with
  | Some (Some k) =>
      (k < n)%nat
      ∧ (∃ b, bs !! k = Some b ∧ hitByBullet target b = true)
      ∧ ∀ i b, (i < k)%nat → bs !! i = Some b → hitByBullet target b = false
  | Some None =>
      ∀ i b, (i < n)%nat → bs !! i = Some b → hitByBullet target b = false
  | None => False
  end.
Proof.
  intros Hn.
  destruct (find_hitBullet_total hitByBullet n 0 target bs) as [r Hr]; [lia |].
  rewrite Hr. destruct r as [k|].
  - destruct (find_hitBullet_Some _ _ _ _ _ _ Hr) as [Hk Hb].
    split_and!; [lia | done |].
    intros i b Hi. apply (find_hitBullet_first _ _ _ _ _ Hr). lia.
  - intros i b Hi. apply (find_hitBullet_None _ _ _ _ Hr). lia.
Qed.

(** The stages of a frame that write to the arrays. *)
Lemma draw_stages s s' :
  draw hitByBullet s = Some s' →
  ∃ s1 s2, drawBullets s = Some s1 ∧ drawTargets hitByBullet s1 = Some s2
           ∧ targets s' = targets s2 ∧ bullets s' = bullets s2.
Proof.
  unfold draw. intros H.
  destruct (drawBullets s) as [s1|] eqn:H1; simpl in H; [|done].
  destruct (drawTargets hitByBullet s1) as [s2|] eqn:H2; simpl in H; [|done].
  destruct (drawStats s2) as [s3|] eqn:H3; simpl in H; [|done].
  exists s1, s2. split; [done |]. split; [done |].
  apply drawStats_Some in H3 as [_ ->].
  apply checkGameOver_Some in H as [-> _]. done.
Qed.

(** What the collision loop has done to the targets below [k], for a hit
    test that does not read the status of the bullet. *)
Lemma drawTargets_loop_hits ts bs n k r0 st :
  status_blind hitByBullet →
  n = length bs →
  for_loop k 0 (drawTargets_body hitByBullet n) (ts, bs, r0) = Some st →
  hit_only hitByBullet bs st.1.2
  ∧ length st.1.1 = length ts
  ∧ ∀ i t, ts !! i = Some t →
      st.1.1 !! i
      = Some (if decide (i < k)%nat
              then if negb (target_hit t) && existsb (hitByBullet t) bs
                   then Target_set_hit t true else t
              else t).
Proof.
  intros Hblind Hn Hloop.
  apply (for_loop_inv
           (λ k (st : list Target * list Bullet * Ref),
              hit_only hitByBullet bs st.1.2
              ∧ length st.1.1 = length ts
              ∧ ∀ i t, ts !! i = Some t →
                  st.1.1 !! i
                  = Some (if decide (i < k)%nat
                          then if negb (target_hit t)
                                  && existsb (hitByBullet t) bs
                               then Target_set_hit t true else t
                          else t))) in Hloop; [done | |].
  - split_and!; [apply hit_only_refl | done |].
    intros i t Ht. rewrite decide_False by lia. done.
  - clear Hloop st. intros j [[ts1 bs1] r] st' _ (Hbs & Hlen & Hts) Hbody.
    cbn [fst snd] in *. unfold drawTargets_body in Hbody.
    destruct (ts1 !! j) as [t1|] eqn:Ht1; [|done].
    assert (∃ t, ts !! j = Some t ∧ t1 = t) as (t & Ht & ->).
    { destruct (lookup_lt_is_Some_2 ts j) as [t Ht].
      { rewrite <- Hlen. by eapply lookup_lt_Some. }
      exists t. split; [done |]. rewrite (Hts _ _ Ht) in Ht1.
      rewrite decide_False in Ht1 by lia. congruence. }
    assert (∀ ts2, length ts2 = length ts1 →
              ts2 !! j = Some (if negb (target_hit t)
                                  && existsb (hitByBullet t) bs
                               then Target_set_hit t true else t) →
              (∀ i, i ≠ j → ts2 !! i = ts1 !! i) →
              length ts2 = length ts
              ∧ ∀ i u, ts !! i = Some u →
                  ts2 !! i
                  = Some (if decide (i < S j)%nat
                          then if negb (target_hit u)
                                  && existsb (hitByBullet u) bs
                               then Target_set_hit u true else u
                          else u)) as Hstep.
    { intros ts2 Hl2 Hj Hoth. split; [congruence |]. intros i u Hu.
      destruct (decide (i = j)) as [->|Hne].
      - rewrite Ht in Hu. injection Hu as <-.
        rewrite Hj. by rewrite decide_True by lia.
      - rewrite Hoth by done. rewrite (Hts _ _ Hu).
        destruct (decide (i < j)%nat); [rewrite decide_True by lia
                                       | rewrite decide_False by lia]; done. }
    (* the answers of the hit test on [bs1] and on [bs] agree *)
    assert (∀ i b1, bs1 !! i = Some b1 →
              ∃ b, bs !! i = Some b ∧ hitByBullet t b1 = hitByBullet t b)
      as Hsame.
    { intros i b1 Hb1. destruct Hbs as [Hl Hpt].
      destruct (lookup_lt_is_Some_2 bs i) as [b Hb].
      { rewrite <- Hl. by eapply lookup_lt_Some. }
      exists b. split; [done |].
      destruct (Hpt _ _ Hb) as (b1' & Hb1' & Hrel).
      rewrite Hb1 in Hb1'. injection Hb1' as <-.
      destruct Hrel as [->|[-> _]]; [done | apply Hblind]. }
    destruct (target_hit t) eqn:Hhit.
    { injection Hbody as <-. cbn [fst snd]. split; [done |].
      apply Hstep; [done | by rewrite Ht1 | done]. }
    destruct (find_hitBullet hitByBullet n 0 t bs1) as [[m|]|] eqn:Hfind;
      simpl in Hbody; [| |done].
    + destruct (bs1 !! m) as [bm|] eqn:Hbm; simpl in Hbody; [|done].
      injection Hbody as <-. cbn [fst snd].
      destruct (find_hitBullet_Some _ _ _ _ _ _ Hfind) as (_ & bm' & Hbm' & Hacc).
      rewrite Hbm in Hbm'. injection Hbm' as <-.
      split; [by eapply hit_only_step |].
      apply Hstep.
      * by rewrite length_insert.
      * rewrite list_lookup_insert_eq by by eapply lookup_lt_Some.
        destruct (Hsame _ _ Hbm) as (b & Hb & Heq).
        assert (existsb (hitByBullet t) bs = true) as ->; [|done].
        apply existsb_exists. exists b. split; [|congruence].
        apply list_elem_of_In, list_elem_of_lookup. by exists m.
      * intros i Hne. by rewrite list_lookup_insert_ne.
    + assert (existsb (hitByBullet t) bs = false) as Hnone.
      { destruct (existsb (hitByBullet t) bs) eqn:E; [|done].
        apply existsb_exists in E as (b & Hin & Hacc).
        apply list_elem_of_In, list_elem_of_lookup in Hin as [i Hi].
        destruct Hbs as [Hl Hpt]. destruct (Hpt _ _ Hi) as (b1 & Hb1 & _).
        destruct (Hsame _ _ Hb1) as (b' & Hb' & Heq).
        rewrite Hi in Hb'. injection Hb' as <-.
        rewrite (find_hitBullet_None _ _ _ _ Hfind i b1) in Heq;
          [congruence | | done].
        split; [lia |]. rewrite Hn. simpl. by eapply lookup_lt_Some. }
      assert (st'.1.1 = ts1 ∧ st'.1.2 = bs1) as [-> ->].
      { destruct r as [| |c]; [done | done |].
        destruct (ts1 !! c); simpl in Hbody; [|done].
        destruct (num_gt _ _); by injection Hbody as <-. }
      split; [done |].
      apply Hstep; [done | by rewrite Ht1, Hnone | done].
Qed.

(** Collision in one frame, for a hit test that does not read the status of
    the bullet (lines 223-247): after the frame a target is hit exactly when
    it was hit before or the test accepts one of the bullets as the motion
    step has left them; nothing else of a target changes. *)
Theorem frame_retires_overlapped (s s' : Playground) (i : nat) (t : Target) :
  status_blind hitByBullet →
  counters_ok s →
  draw hitByBullet s = Some s' →
  targets s !! i = Some t →
  targets s' !! i
  = Some (if negb (target_hit t)
             && existsb (hitByBullet t) (moved (bulletStep s) <$> bullets s)
          then Target_set_hit t true else t).
Proof.
  intros Hblind [Hbl Htl] Hd Ht.
  destruct (draw_stages _ _ Hd) as (s1 & s2 & H1 & H2 & -> & _).
  rewrite drawBullets_full in H1 by done. injection H1 as <-.
  unfold drawTargets in H2.
  cbn [targets bullets targetsLen bulletsLen set_bullets] in H2.
  destruct (for_loop _ _ _ _) as [st|] eqn:Hloop; simpl in H2; [|done].
  injection H2 as <-. cbn [targets set_targets set_bullets set_closestTarget].
  assert (bulletsLen s = length (moved (bulletStep s) <$> bullets s)) as Hlen
    by by rewrite length_fmap.
  destruct (drawTargets_loop_hits _ _ _ _ _ _ Hblind Hlen Hloop)
    as (_ & _ & Hts).
  rewrite (Hts _ _ Ht). rewrite decide_True; [done |].
  rewrite Htl. by eapply lookup_lt_Some.
Qed.

End Matching.

(** The scan on the bullets of [under_fire], for its first target: the third
    bullet is the first one that overlaps it. *)
Lemma first_bullet_wins_witness :
  (3 <= length (bullets under_fire))%nat
  ∧ match find_hitBullet overlaps 3 0 (mkTarget 564 22 76 76 false)
            (bullets under_fire) with
    | Some (Some k) =>
        (k < 3)%nat
        ∧ (∃ b, bullets under_fire !! k = Some b
                ∧ overlaps (mkTarget 564 22 76 76 false) b = true)
        ∧ ∀ i b, (i < k)%nat → bullets under_fire !! i = Some b →
            overlaps (mkTarget 564 22 76 76 false) b = false
    | Some None =>
        ∀ i b, (i < 3)%nat → bullets under_fire !! i = Some b →
          overlaps (mkTarget 564 22 76 76 false) b = false
    | None => False
    end.
Proof.
  split; [vm_compute; lia |].
  apply (first_bullet_wins overlaps 3 (mkTarget 564 22 76 76 false)
           (bullets under_fire)).
  vm_compute. lia.
Defined.

(** The statement on [under_fire]: the first target is retired by the bullet
    lying inside it, the second is not. *)
Lemma frame_retires_overlapped_witness :
  ∃ s',
    status_blind overlaps
    ∧ counters_ok under_fire
    ∧ draw overlaps under_fire = Some s'
    ∧ targets s' !! 0%nat = Some (mkTarget 564 22 76 76 true)
    ∧ targets s' !! 1%nat = Some (mkTarget 22 22 76 76 false).
Proof.
  assert (status_blind overlaps) as Hblind by (intros t b st; reflexivity).
  assert (counters_ok under_fire) as Hok by (split; reflexivity).
  assert (∃ s', draw overlaps under_fire = Some s') as [s' Hs']
    by (eexists; vm_compute; reflexivity).
  exists s'. split_and!; [exact Hblind | exact Hok | exact Hs' | |].
  - rewrite (frame_retires_overlapped overlaps under_fire s' 0
               (mkTarget 564 22 76 76 false) Hblind Hok Hs' eq_refl).
    vm_compute. reflexivity.
  - rewrite (frame_retires_overlapped overlaps under_fire s' 1
               (mkTarget 22 22 76 76 false) Hblind Hok Hs' eq_refl).
    vm_compute. reflexivity.
Defined.

(** ** The terminal check *)

(** The terminal check of a frame (lines 252-258 and 315-319) misses no
    target: if, after the frame, some target that is not hit has its bottom
    edge at or below the gun's [y], [gameOver] is [true].  Conversely, when
    [gameOver] is [true], [closestTarget] refers to a target whose bottom edge
    is at or below the gun's [y], and that target is not hit or is
    [targets[0]].  On a field with targets [gameOver] is a boolean. *)
Theorem gameOver_detects (hitByBullet : Target → Bullet → bool)
    (s s' : Playground) :
  counters_ok s →
  draw hitByBullet s = Some s' →
  (∀ i t, targets s' !! i = Some t → target_hit t = false →
     gun_y (gun s') <= target_y t + target_height t →
     gameOver s' = JBool true)
  ∧ (gameOver s' = JBool true →
     ∃ c t, closestTarget s' = RObj c ∧ targets s' !! c = Some t
            ∧ gun_y (gun s') <= target_y t + target_height t
            ∧ (c = 0%nat ∨ target_hit t = false))
  ∧ (targets s ≠ [] → ∃ b, gameOver s' = JBool b).
Proof.
  intros [_ Htl] Hd. apply draw_frame in Hd.
  pose proof (frame_closest _ _ _ Hd) as Hcl.
  pose proof (frame_gameOver _ _ _ Hd) as Hgo.
  rewrite (frame_gun _ _ _ Hd).
  destruct (frame_targets _ _ _ Hd) as [Hlen _].
  destruct (targets s) as [|u us] eqn:Hts.
  - rewrite Hcl in Hgo. split_and!; [| by rewrite Hgo | done].
    intros i t Ht. apply lookup_lt_Some in Ht. rewrite Hlen in Ht.
    simpl in Ht. lia.
  - destruct Hcl as (m & tm & t0 & Hm & Htm & Ht0 & Hle0 & Hm' & Hall).
    rewrite Hm in Hgo. destruct Hgo as (tm' & Htm' & Hgo).
    rewrite Htm in Htm'. injection Htm' as <-.
    split_and!.
    + intros i t Ht Hun Hline. rewrite Hgo. f_equal. apply num_ge_true.
      eapply Qle_trans; [exact Hline |]. apply (Hall i t); [|done | done].
      rewrite Htl, <- Hlen. by eapply lookup_lt_Some.
    + intros Htrue. rewrite Hgo in Htrue. injection Htrue as Htrue.
      apply num_ge_true in Htrue.
      exists m, tm. split_and!; [done | done | done |].
      destruct Hm' as [->|[_ ?]]; [by left | by right].
    + intros _. by eexists.
Qed.

(** The statement on the state six spawns into a game on the standard
    field. *)
Lemma gameOver_detects_witness :
  counters_ok late_game
  ∧ draw overlaps late_game = Some late_frame
  ∧ (∀ i t, targets late_frame !! i = Some t → target_hit t = false →
       gun_y (gun late_frame) <= target_y t + target_height t →
       gameOver late_frame = JBool true)
  ∧ (gameOver late_frame = JBool true →
     ∃ c t, closestTarget late_frame = RObj c ∧ targets late_frame !! c = Some t
            ∧ gun_y (gun late_frame) <= target_y t + target_height t
            ∧ (c = 0%nat ∨ target_hit t = false))
  ∧ (targets late_game ≠ [] → ∃ b, gameOver late_frame = JBool b).
Proof.
  assert (counters_ok late_game) as Hok by (split; reflexivity).
  assert (draw overlaps late_game = Some late_frame) as Hd
    by (vm_compute; reflexivity).
  split; [exact Hok |]. split; [exact Hd |].
  apply (gameOver_detects overlaps late_game late_frame Hok Hd).
Defined.

(** ** When a call throws *)

(** [draw] and [createTargets] throw exactly when a cached length exceeds its
    array, that is when a loop reads [bullets[i]] or [targets[i]] past the end
    (lines 190-193, 137-138, 225-228, 273); [createBullet] and the gun moves
    never throw. *)
Theorem calls_throw_iff (hitByBullet : Target → Bullet → bool)
    (s : Playground) :
  (is_Some (draw hitByBullet s)
   ↔ (bulletsLen s <= length (bullets s))%nat
     ∧ (targetsLen s <= length (targets s))%nat)
  ∧ (is_Some (createTargets s) ↔ (targetsLen s <= length (targets s))%nat).
Proof.
  split; split.
  - intros [s' Hs']. apply draw_frame in Hs'.
    split; [apply (frame_bullets_bound _ _ _ Hs')
           | apply (frame_targets_bound _ _ _ Hs')].
  - intros [Hb Ht]. destruct (draw_total hitByBullet s Hb Ht) as [s' Hs'].
    by exists s'.
  - intros [s' Hs']. by eapply createTargets_Some.
  - intros Hn. rewrite createTargets_closed by done. by eexists.
Qed.

(** ** Starting again *)

Section Restart.

Variable hitByBullet : Target → Bullet → bool.

Lemma same_layout_newGame c c' s :
  c_width c' = c_width c → c_height c' = c_height c →
  c_gunStep c' = c_gunStep c → c_bulletStep c' = c_bulletStep c →
  stats_x (c_stats c') = stats_x (c_stats c) →
  stats_y (c_stats c') = stats_y (c_stats c) →
  stats_fontSize (c_stats c') = stats_fontSize (c_stats c) →
  gun_y (c_gun c') = gun_y (c_gun c) →
  newGame hitByBullet c' = Some s → same_layout c s.
Proof.
  intros ? ? ? ? ? ? ? ? H. rewrite newGame_closed in H. injection H as <-.
  unfold same_layout. cbn. done.
Qed.

Lemma same_layout_step c o s s1 :
  step hitByBullet o s = Some s1 → same_layout c s → same_layout c s1.
Proof.
  intros H (Hw & Hh & Hgs & Hbs & Hx & Hy & Hf & Hg). destruct o; simpl in H.
  - injection H as <-. by unfold same_layout.
  - rewrite createTargets_closed in H by by eapply createTargets_Some.
    injection H as <-. by unfold same_layout.
  - apply draw_frame in H. destruct H. unfold same_layout.
    rewrite frame_stats0. cbn. split_and!; congruence.
  - injection H as <-. by unfold same_layout.
  - injection H as <-. by unfold same_layout.
Qed.

Lemma same_layout_calls c ks s s' :
  calls hitByBullet ks s = Some s' → same_layout c s → same_layout c s'.
Proof.
  revert s. induction ks as [|k ks IH]; intros s H Hl; simpl in H.
  - by injection H as <-.
  - destruct (call hitByBullet k s) as [s1|] eqn:H1; simpl in H; [|done].
    apply (IH s1 H). destruct k as [|o]; simpl in H1.
    + destruct Hl as (? & ? & ? & ? & ? & ? & ? & ?).
      by apply (same_layout_newGame c (constructed_of s)).
    + by eapply same_layout_step.
Qed.

(** [newGame] on a running game (lines 53-69) forgets the whole session
    except the gun: after any sequence of public calls, it leaves exactly the
    state that the first [newGame] left, with the gun where the session has
    moved it. *)
Theorem restart_keeps_only_the_gun (c : Constructed) (ks : list Call)
    (s : Playground) :
  newGame hitByBullet c ≫= calls hitByBullet ks = Some s →
  newGame hitByBullet (constructed_of s)
  = (λ s0, set_gun s0 (gun s)) <$> newGame hitByBullet c.
Proof.
  intros H.
  destruct (newGame hitByBullet c) as [s0|] eqn:H0; simpl in H; [|done].
  assert (same_layout c s) as (Hw & Hh & Hgs & Hbs & Hx & Hy & Hf & Hg).
  { apply (same_layout_calls c ks s0 s H).
    by apply (same_layout_newGame c c). }
  rewrite newGame_closed in H0. injection H0 as <-.
  rewrite newGame_closed. cbn. unfold set_gun, Stats_update. cbn.
  rewrite Hw, Hh, Hgs, Hbs, Hx, Hy, Hf, Hg. reflexivity.
Qed.

End Restart.

(** The statement after a game on the standard field in which the gun has
    moved and a bullet has flown. *)
Lemma restart_keeps_only_the_gun_witness :
  ∃ s,
    newGame overlaps standard_field
    ≫= calls overlaps [Session MoveGunLeft; Session CreateBullet; Session Draw;
                       Session CreateTargets; Session Draw]
    = Some s
    ∧ newGame overlaps (constructed_of s)
      = (λ s0, set_gun s0 (gun s)) <$> newGame overlaps standard_field.
Proof.
  assert (∃ s, newGame overlaps standard_field
               ≫= calls overlaps [Session MoveGunLeft; Session CreateBullet;
                                  Session Draw; Session CreateTargets;
                                  Session Draw] = Some s) as [s Hs]
    by (eexists; vm_compute; reflexivity).
  exists s. split; [exact Hs |].
  apply (restart_keeps_only_the_gun overlaps standard_field _ s Hs).
Defined.

(** ** Calls that do not interfere *)

Lemma draw_set_gun (hitByBullet : Target → Bullet → bool) s g :
  gun_y g = gun_y (gun s) →
  draw hitByBullet (set_gun s g) = (λ s', set_gun s' g) <$> draw hitByBullet s.
Proof.
  intros Hg. destruct s as [w h go g0 gs bs bl bst ts tl ct st]. cbn in Hg.
  unfold draw, drawBullets, set_gun. cbn [bullets bulletsLen bulletStep].
  destruct (for_loop bl 0 (drawBullets_body bst) bs) as [bs1|];
    cbn [mbind option_bind fmap option_fmap option_map]; [|done].
  unfold drawTargets, set_bullets.
  cbn [bullets bulletsLen targets targetsLen width height gameOver gun gunStep
       bulletStep closestTarget stats].
  destruct (for_loop tl 0 _ _) as [[[ts2 bs2] r2]|];
    cbn [mbind option_bind fmap option_fmap option_map fst snd]; [|done].
  unfold drawStats, set_closestTarget, set_targets, set_bullets.
  cbn [bullets bulletsLen targets targetsLen width height gameOver gun gunStep
       bulletStep closestTarget stats].
  destruct (for_loop bl 0 _ _) as [[hs ms]|];
    cbn [mbind option_bind fmap option_fmap option_map fst snd]; [|done].
  unfold checkGameOver, set_stats.
  cbn [bullets bulletsLen targets targetsLen width height gameOver gun gunStep
       bulletStep closestTarget stats].
  destruct r2 as [| |c]; [done | done |].
  destruct (ts2 !! c) as [tc|];
    cbn [mbind option_bind fmap option_fmap option_map]; [|done].
  unfold set_gameOver. cbn. by rewrite Hg.
Qed.

(** The gun's [x] plays no part in a frame or a spawn, and a shot none in a
    spawn: moving the gun before [draw] or [createTargets] gives the state
    that moving it afterwards gives, and [createBullet] before
    [createTargets] the state that [createBullet] afterwards gives (an
    exception on one side is an exception on the other). *)
Theorem calls_commute (hitByBullet : Target → Bullet → bool) (s : Playground) :
  draw hitByBullet (moveGunLeft s) = moveGunLeft <$> draw hitByBullet s
  ∧ draw hitByBullet (moveGunRight s) = moveGunRight <$> draw hitByBullet s
  ∧ createTargets (moveGunLeft s) = moveGunLeft <$> createTargets s
  ∧ createTargets (moveGunRight s) = moveGunRight <$> createTargets s
  ∧ createTargets (createBullet s) = createBullet <$> createTargets s.
Proof.
  split_and!.
  - unfold moveGunLeft at 1. rewrite draw_set_gun by done.
    destruct (draw hitByBullet s) as [s'|] eqn:Hd; [|done]. simpl.
    apply draw_frame in Hd. unfold moveGunLeft.
    by rewrite (frame_gun _ _ _ Hd), (frame_gunStep _ _ _ Hd).
  - unfold moveGunRight at 1. rewrite draw_set_gun by done.
    destruct (draw hitByBullet s) as [s'|] eqn:Hd; [|done]. simpl.
    apply draw_frame in Hd. unfold moveGunRight.
    by rewrite (frame_gun _ _ _ Hd), (frame_gunStep _ _ _ Hd).
  - unfold createTargets. cbn [targets targetsLen width moveGunLeft set_gun].
    destruct (for_loop (targetsLen s) _ _ _) as [ts|]; [|done].
    cbn [mbind option_bind]. destruct (for_loop targetsInRow _ _ _); done.
  - unfold createTargets. cbn [targets targetsLen width moveGunRight set_gun].
    destruct (for_loop (targetsLen s) _ _ _) as [ts|]; [|done].
    cbn [mbind option_bind]. destruct (for_loop targetsInRow _ _ _); done.
  - unfold createTargets.
    cbn [targets targetsLen width createBullet set_bullets set_bulletsLen].
    destruct (for_loop (targetsLen s) _ _ _) as [ts|]; [|done].
    cbn [mbind option_bind]. destruct (for_loop targetsInRow _ _ _); done.
Qed.

(** ** The closest target is the lowest one *)

(** After a frame on a field with targets (lines 221 and 252-258),
    [closestTarget] refers to a target that lies at least as low as every
    target that is not hit, and as [targets[0]]; it is one of these. *)
Theorem closest_is_lowest (hitByBullet : Target → Bullet → bool)
    (s s' : Playground) :
  counters_ok s →
  draw hitByBullet s = Some s' →
  targets s ≠ [] →
  ∃ c tc,
    closestTarget s' = RObj c ∧ targets s' !! c = Some tc
    ∧ (c = 0%nat ∨ target_hit tc = false)
    ∧ (∀ t0, targets s' !! 0%nat = Some t0 →
         target_y t0 + target_height t0 <= target_y tc + target_height tc)
    ∧ (∀ i t, targets s' !! i = Some t → target_hit t = false →
         target_y t + target_height t <= target_y tc + target_height tc).
Proof.
  intros [_ Htl] Hd Hne. apply draw_frame in Hd.
  pose proof (frame_closest _ _ _ Hd) as Hcl.
  destruct (frame_targets _ _ _ Hd) as [Hlen _].
  destruct (targets s) as [|u us] eqn:Hts; [done |].
  destruct Hcl as (m & tm & t0 & Hm & Htm & Ht0 & Hle0 & Hm' & Hall).
  exists m, tm. split_and!; [done | done | | |].
  - destruct Hm' as [->|[_ ?]]; [by left | by right].
  - intros t0' Ht0'. rewrite Ht0 in Ht0'. by injection Ht0' as <-.
  - intros i t Ht Hun. apply (Hall i t); [|done | done].
    rewrite Htl, <- Hlen. by eapply lookup_lt_Some.
Qed.

(** The statement on [under_fire]. *)
Lemma closest_is_lowest_witness :
  ∃ s',
    counters_ok under_fire
    ∧ draw overlaps under_fire = Some s'
    ∧ targets under_fire ≠ []
    ∧ ∃ c tc,
        closestTarget s' = RObj c ∧ targets s' !! c = Some tc
        ∧ (c = 0%nat ∨ target_hit tc = false)
        ∧ (∀ t0, targets s' !! 0%nat = Some t0 →
             target_y t0 + target_height t0 <= target_y tc + target_height tc)
        ∧ (∀ i t, targets s' !! i = Some t → target_hit t = false →
             target_y t + target_height t <= target_y tc + target_height tc).
Proof.
  assert (counters_ok under_fire) as Hok by (split; reflexivity).
  assert (∃ s', draw overlaps under_fire = Some s') as [s' Hs']
    by (eexists; vm_compute; reflexivity).
  assert (targets under_fire ≠ []) as Hne by discriminate.
  exists s'. split_and!; [exact Hok | exact Hs' | exact Hne |].
  apply (closest_is_lowest overlaps under_fire s' Hok Hs' Hne).
Defined.
